(** * The chat request pipeline of the news RAG backend (src/server.js)

    A shallow embedding of the Express backend: the session store behind
    [redis] (with the in-process [mem] fallback), [pushMsg] / [getHistory],
    the Gemini client with its retry loop, the prompt builder, the busy
    fallback and the [/api/chat] handler, followed by the properties of the
    specification that concern them.

    Conventions.
    - JavaScript numbers that the program only uses as integers (indices,
      retry counts, delays in milliseconds, epoch timestamps, HTTP status
      codes) are [Z]; all of them stay far below 2^53, where the arithmetic
      of doubles on integers is exact.
    - JavaScript strings are [string] (sequences of bytes, UTF-8 for the
      characters outside ASCII that the source text contains).
    - Everything the process reads from the outside (the clock, the random
      generator, the answers of Qdrant, Gemini and a remote Redis) is an
      oracle of the environment, indexed by the number of earlier readings.
    - The routes [/health], [/api/session/new], [/api/stats] and the two
      redirecting aliases do not touch the chat pipeline and are left out. *)

From Stdlib Require Import ZArith QArith Qround Lia String Ascii.
From Stdlib Require Import DecimalString DecimalZ DecimalPos PrimFloat.
From stdpp Require Import gmap strings list.

Set Warnings "-register-all".

(** ** Strings *)

Definition dquote : ascii := "034"%char.
Definition backslash : ascii := "092"%char.
Definition LF : string := String "010"%char EmptyString.

(** [Array.prototype.join]. *)
Fixpoint join (sep : string) (l : list string) : string :=
  match l with
  | [] => EmptyString
  | [x] => x
  | x :: r => x +:+ sep +:+ join sep r
  end.

(** Template literals render a number in decimal. *)
Definition num (n : Z) : string := NilZero.string_of_int (Z.to_int n).

(** ** JSON values and the runtime's [JSON.stringify] / [JSON.parse] *)

Module JSON.

Inductive value : Type :=
| Null
| Bool (b : bool)
| Num (n : Z)
| Str (s : string)
| Arr (xs : list value)
| Obj (fields : list (string * value)).

(** Property assignment: an existing key keeps its position and takes the new
    value, a new key goes last. *)
Fixpoint set (k : string) (v : value) (o : list (string * value)) : list (string * value) :=
  match o with
  | [] => [(k, v)]
  | (k', v') :: r => if String.eqb k k' then (k, v) :: r else (k', v') :: set k v r
  end.

Fixpoint get (k : string) (o : list (string * value)) : option value :=
  match o with
  | [] => None
  | (k', v') :: r => if String.eqb k k' then Some v' else get k r
  end.

(** Object spread [{...o, ...extra}]. *)
Definition spread (o extra : list (string * value)) : list (string * value) :=
  fold_left (fun acc kv => set (fst kv) (snd kv) acc) extra o.

Definition prop (k : string) (v : value) : option value :=
  match v with
  | Obj o => get k o
  | _ => None
  end.

(** *** Printing *)

Definition hex (n : N) : ascii :=
  ascii_of_N (if (n <? 10)%N then 48 + n else 87 + n).

(** The control characters U+0000 to U+001F. *)
Definition is_control (c : ascii) : bool :=
  match c with
  | Ascii _ _ _ _ _ false false false => true
  | _ => false
  end.

Definition escape (c : ascii) : string :=
  let n := N_of_ascii c in
  if Ascii.eqb c dquote then String backslash (String dquote EmptyString)
  else if Ascii.eqb c backslash then String backslash (String backslash EmptyString)
  else if Ascii.eqb c "008" then String backslash "b"
  else if Ascii.eqb c "012" then String backslash "f"
  else if Ascii.eqb c "010" then String backslash "n"
  else if Ascii.eqb c "013" then String backslash "r"
  else if Ascii.eqb c "009" then String backslash "t"
  else if is_control c then
    String backslash (String "u" (String "0" (String "0"
      (String (hex (n / 16)) (String (hex (n mod 16)) EmptyString)))))
  else String c EmptyString.

Fixpoint escape_all (s : string) : string :=
  match s with
  | EmptyString => EmptyString
  | String c r => escape c +:+ escape_all r
  end.

Definition quote (s : string) : string :=
  String dquote (escape_all s +:+ String dquote EmptyString).

Fixpoint stringify (v : value) : string :=
  match v with
  | Null => "null"
  | Bool true => "true"
  | Bool false => "false"
  | Num n => num n
  | Str s => quote s
  | Arr xs => "[" +:+ join "," (map stringify xs) +:+ "]"
  | Obj fs =>
      "{" +:+ join "," (map (fun kv => let '(k, x) := kv in quote k +:+ ":" +:+ stringify x) fs) +:+ "}"
  end.

(** *** Parsing *)

Definition is_ws (c : ascii) : bool :=
  match c with
  | " " | "009" | "010" | "013" => true
  | _ => false
  end%char.

Fixpoint skip_ws (s : string) : string :=
  match s with
  | String c r => if is_ws c then skip_ws r else s
  | EmptyString => s
  end.

(** The position of a character in an alphabet. *)
Fixpoint index_of (c : ascii) (alphabet : string) : option N :=
  match alphabet with
  | EmptyString => None
  | String d r => if Ascii.eqb c d then Some 0%N else N.succ <$> index_of c r
  end.

(** The value of a hexadecimal digit, of either case. *)
Definition unhex (c : ascii) : option N :=
  match index_of c "0123456789abcdef" with
  | Some n => Some n
  | None => N.add 10 <$> index_of c "ABCDEF"
  end.

(** One character of a string literal, plain or escaped; [rec] reads the
    characters that follow it.  Escapes [\uXXXX] are decoded for the code
    points of one byte, which are the ones [JSON.stringify] writes that way. *)
Definition parse_char (rec : string -> option (string * string)) (c : ascii) (r : string)
  : option (string * string) :=
  let cont (d : ascii) (rest : option (string * string)) :=
    match rest with
    | Some (t, r') => Some (String d t, r')
    | None => None
    end in
  if Ascii.eqb c backslash then
    match r with
    | String e r1 =>
        if Ascii.eqb e dquote then cont dquote (rec r1)
        else if Ascii.eqb e backslash then cont backslash (rec r1)
        else if Ascii.eqb e "/" then cont "/"%char (rec r1)
        else if Ascii.eqb e "b" then cont "008"%char (rec r1)
        else if Ascii.eqb e "f" then cont "012"%char (rec r1)
        else if Ascii.eqb e "n" then cont "010"%char (rec r1)
        else if Ascii.eqb e "r" then cont "013"%char (rec r1)
        else if Ascii.eqb e "t" then cont "009"%char (rec r1)
        else if Ascii.eqb e "u" then
          match r1 with
          | String h3 (String h2 (String h1 (String h0 r2))) =>
              match unhex h3, unhex h2, unhex h1, unhex h0 with
              | Some 0%N, Some 0%N, Some a, Some b => cont (ascii_of_N (16 * a + b)) (rec r2)
              | _, _, _, _ => None
              end
          | _ => None
          end
        else None
    | EmptyString => None
    end
  else if is_control c then None
  else cont c (rec r).

(** The characters of a string literal, after its opening quote, up to and
    including the closing quote. *)
Fixpoint parse_chars (s : string) : option (string * string) :=
  match s with
  | EmptyString => None
  | String c r =>
      if Ascii.eqb c dquote then Some (EmptyString, r) else parse_char parse_chars c r
  end.

Definition digit (c : ascii) : option (Decimal.uint -> Decimal.uint) :=
  match c with
  | "0" => Some Decimal.D0 | "1" => Some Decimal.D1 | "2" => Some Decimal.D2
  | "3" => Some Decimal.D3 | "4" => Some Decimal.D4 | "5" => Some Decimal.D5
  | "6" => Some Decimal.D6 | "7" => Some Decimal.D7 | "8" => Some Decimal.D8
  | "9" => Some Decimal.D9
  | _ => None
  end%char.

(** The longest prefix of decimal digits. *)
Fixpoint read_uint (s : string) : Decimal.uint * string :=
  match s with
  | EmptyString => (Decimal.Nil, s)
  | String c r =>
      match digit c with
      | Some d => let (u, r') := read_uint r in (d u, r')
      | None => (Decimal.Nil, s)
      end
  end.

(** Integer literals: the numbers this program stores are the integers of
    [Date.now()].  A fraction or an exponent is not read, and a leading zero
    is not refused. *)
Definition parse_number (s : string) : option (Z * string) :=
  match s with
  | String "-" r =>
      match read_uint r with
      | (Decimal.Nil, _) => None
      | (u, r') => Some (Z.of_int (Decimal.Neg u), r')
      end
  | _ =>
      match read_uint s with
      | (Decimal.Nil, _) => None
      | (u, r') => Some (Z.of_int (Decimal.Pos u), r')
      end
  end.

Fixpoint expect (w s : string) : option string :=
  match w with
  | EmptyString => Some s
  | String c w' =>
      match s with
      | String d s' => if Ascii.eqb c d then expect w' s' else None
      | EmptyString => None
      end
  end.

Fixpoint parse_value (fuel : nat) (s : string) : option (value * string) :=
  match fuel with
  | O => None
  | S f =>
      match skip_ws s with
      | EmptyString => None
      | String c r =>
          if Ascii.eqb c dquote then
            match parse_chars r with
            | Some (t, r') => Some (Str t, r')
            | None => None
            end
          else if Ascii.eqb c "{" then
            match skip_ws r with
            | String "}" r' => Some (Obj [], r')
            | _ =>
                match parse_members f r [] with
                | Some (o, r') => Some (Obj o, r')
                | None => None
                end
            end
          else if Ascii.eqb c "[" then
            match skip_ws r with
            | String "]" r' => Some (Arr [], r')
            | _ =>
                match parse_elements f r with
                | Some (xs, r') => Some (Arr xs, r')
                | None => None
                end
            end
          else if Ascii.eqb c "n" then
            match expect "ull" r with Some r' => Some (Null, r') | None => None end
          else if Ascii.eqb c "t" then
            match expect "rue" r with Some r' => Some (Bool true, r') | None => None end
          else if Ascii.eqb c "f" then
            match expect "alse" r with Some r' => Some (Bool false, r') | None => None end
          else
            match parse_number (String c r) with
            | Some (n, r') => Some (Num n, r')
            | None => None
            end
      end
  end
with parse_members (fuel : nat) (s : string) (acc : list (string * value))
  : option (list (string * value) * string) :=
  match fuel with
  | O => None
  | S f =>
      match skip_ws s with
      | String c r =>
          if Ascii.eqb c dquote then
            match parse_chars r with
            | Some (k, r1) =>
                match skip_ws r1 with
                | String ":" r2 =>
                    match parse_value f r2 with
                    | Some (v, r3) =>
                        match skip_ws r3 with
                        | String "," r4 => parse_members f r4 (set k v acc)
                        | String "}" r4 => Some (set k v acc, r4)
                        | _ => None
                        end
                    | None => None
                    end
                | _ => None
                end
            | None => None
            end
          else None
      | EmptyString => None
      end
  end
with parse_elements (fuel : nat) (s : string) : option (list value * string) :=
  match fuel with
  | O => None
  | S f =>
      match parse_value f s with
      | Some (v, r1) =>
          match skip_ws r1 with
          | String "," r2 =>
              match parse_elements f r2 with
              | Some (xs, r3) => Some (v :: xs, r3)
              | None => None
              end
          | String "]" r2 => Some ([v], r2)
          | _ => None
          end
      | None => None
      end
  end.

(** [JSON.parse]: one value, then nothing but white space; [None] stands for
    the [SyntaxError] it throws.  A level of nesting takes a character and
    two units of fuel.  The texts read are those of [stringify] above, with
    white space between the tokens: for a number with a fraction or an
    exponent and for an escape above [\u00ff] the result is [None] as well,
    though the runtime reads them. *)
Definition parse (s : string) : option value :=
  match parse_value (2 * String.length s + 2) s with
  | Some (v, r) => match skip_ws r with EmptyString => Some v | _ => None end
  | None => None
  end.

(** The text that follows an integer literal does not go on with a digit. *)
Definition no_digit_ahead (s : string) : Prop :=
  match s with
  | EmptyString => True
  | String c _ => digit c = None
  end.

(** The object [pushMsg] stores for a message without extra fields. *)
Definition message_obj (role content : string) (ts : Z) : value :=
  Obj [("role", Str role); ("content", Str content); ("ts", Num ts)].

End JSON.

(** ** Data model *)

(** A retrieved passage (one entry of Qdrant's [result], with its payload). *)
Module Passage.
Record t := {
  score : float;
  title : string;
  url : string;
  chunk : string }.
End Passage.

(** An entry of the [sources] array of the chat response. *)
Module Source.
Record t := {
  id : Z;
  title : string;
  url : string }.
End Source.

(** Errors thrown by [axios] carry the HTTP response when there was one;
    [new Error(msg)] has none. *)
Record AxiosResponse := {
  status : Z;
  data : JSON.value }.

Record exn := {
  message : string;
  response : option AxiosResponse }.

Definition Error (msg : string) : exn := {| message := msg; response := None |}.

(** The JSON body of [POST /api/chat], as [express.json()] hands it over:
    an object whose fields [sessionId] and [message], when present, are
    strings. *)
Module Body.
Record t := {
  sessionId : option string;
  message : option string }.
End Body.

Inductive Reply :=
| ChatReply (answer : string) (sources : list Source.t)
| HistoryReply (messages : list JSON.value)
| OkReply
| ErrorReply (error : string) (detail : option string).

(** [res.status(code).json(reply)]; [res.json] alone answers 200. *)
Record Response := {
  code : Z;
  reply : Reply }.

(** Truthiness of a JSON value and of a string. *)
Definition truthy (v : JSON.value) : bool :=
  match v with
  | JSON.Null => false
  | JSON.Bool b => b
  | JSON.Num n => negb (n =? 0)%Z
  | JSON.Str s => negb (String.eqb s EmptyString)
  | JSON.Arr _ | JSON.Obj _ => true
  end.

Definition nonempty (s : string) : bool := negb (String.eqb s EmptyString).

(** ** Configuration and environment *)

Inductive Backend := Upstash | IORedis | Memory.

(** The numeric settings are the integers [parseInt] reads from the
    environment variables (or from the defaults). *)
Record Config := {
  TOP_K : Z;
  LLM_RETRIES : Z;
  LLM_RETRY_MS : Z;
  qdrant_configured : bool;      (* QDRANT_URL && QDRANT_API_KEY *)
  backend : Backend }.

Definition TTL_SECONDS : Z := 60 * 60 * 24 * 7.

(** What the process observes of the outside world.  The [k]-th reading of
    each source is the value of the oracle at [k]. *)
Record Env := {
  Date_now : nat -> Z;
  Math_random : nat -> Q;
  (* the [k]-th POST to Gemini: the error thrown by axios, or the field
     [data?.candidates?.[0]?.content?.parts?.[0]?.text] of the reply *)
  gemini_post : nat -> string -> exn + option string;
  (* embedding of the query followed by the vector search *)
  qdrant_post : string -> Z -> exn + list Passage.t;
  (* remote Redis: the error, if any, with which the [k]-th command fails *)
  redis_fault : nat -> option exn }.

Inductive Event :=
| EPost (prompt : string)               (* a request sent to Gemini *)
| ESleep (ms : Z)                       (* [await sleep(ms)] *)
| EWarn (tag : string) (arg : JSON.value)
| EError (tag : string) (arg : JSON.value)
| ERedis (cmd : string) (key : string). (* a call of a method of [redis] *)

Record State := {
  mem : gmap string (list string);   (* the keyed lists of the store *)
  ticks : nat;                       (* readings of the clock so far *)
  draws : nat;                       (* calls of Math.random so far *)
  posts : nat;                       (* requests sent to Gemini so far *)
  cmds : nat;                        (* commands sent to a remote Redis so far *)
  trace : list Event }.              (* effects, oldest first *)

Definition init : State :=
  {| mem := ∅; ticks := 0; draws := 0; posts := 0; cmds := 0; trace := [] |}.

Definition set_mem (m : gmap string (list string)) (s : State) : State :=
  {| mem := m; ticks := ticks s; draws := draws s; posts := posts s;
     cmds := cmds s; trace := trace s |}.

Definition tick (s : State) : State :=
  {| mem := mem s; ticks := S (ticks s); draws := draws s; posts := posts s;
     cmds := cmds s; trace := trace s |}.

Definition draw (s : State) : State :=
  {| mem := mem s; ticks := ticks s; draws := S (draws s); posts := posts s;
     cmds := cmds s; trace := trace s |}.

Definition post (s : State) : State :=
  {| mem := mem s; ticks := ticks s; draws := draws s; posts := S (posts s);
     cmds := cmds s; trace := trace s |}.

Definition cmd (s : State) : State :=
  {| mem := mem s; ticks := ticks s; draws := draws s; posts := posts s;
     cmds := S (cmds s); trace := trace s |}.

(** The state after [v] is appended to the list at [k]. *)
Definition appended (k v : string) (s : State) : State :=
  set_mem (<[k := default [] (mem s !! k) ++ [v]]> (mem s)) s.

Definition log (e : Event) (s : State) : State :=
  {| mem := mem s; ticks := ticks s; draws := draws s; posts := posts s;
     cmds := cmds s; trace := trace s ++ [e] |}.

(** ** Computations: state, exceptions, and running out of fuel *)

Inductive outcome (A : Type) :=
| Ok (a : A)
| Throw (e : exn)
| Diverge.
Arguments Ok {A} a.
Arguments Throw {A} e.
Arguments Diverge {A}.

Definition M (A : Type) : Type := State -> outcome A * State.

Definition ret {A} (a : A) : M A := fun s => (Ok a, s).

Definition throw {A} (e : exn) : M A := fun s => (Throw e, s).

Definition bind {A B} (m : M A) (k : A -> M B) : M B :=
  fun s =>
    match m s with
    | (Ok a, s') => k a s'
    | (Throw e, s') => (Throw e, s')
    | (Diverge, s') => (Diverge, s')
    end.

(** [try { body } catch (e) { handler e }] *)
Definition try_catch {A} (body : M A) (handler : exn -> M A) : M A :=
  fun s =>
    match body s with
    | (Throw e, s') => handler e s'
    | r => r
    end.

Notation "'let*' x ':=' m 'in' k" := (bind m (fun x => k))
  (at level 10, x name, k at level 200, only parsing).

Definition emit (e : Event) : M unit := fun s => (Ok tt, log e s).

Definition sleep (ms : Z) : M unit := emit (ESleep ms).
Definition console_warn (tag : string) (arg : JSON.value) : M unit := emit (EWarn tag arg).
Definition console_error (tag : string) (arg : JSON.value) : M unit := emit (EError tag arg).

(** [e?.response?.data || e.message], the argument of the log calls. *)
Definition log_arg (e : exn) : JSON.value :=
  match response e with
  | Some r => if truthy (data r) then data r else JSON.Str (message e)
  | None => JSON.Str (message e)
  end.

(** [String.prototype.trim]: white space and line terminators are removed
    from both ends; the ones outside ASCII appear as their UTF-8 bytes. *)
Fixpoint trimStart (s : string) : string :=
  match s with
  | String "009" r | String "010" r | String "011" r | String "012" r
  | String "013" r | String " " r => trimStart r
  | String "194" (String "160" r) => trimStart r                      (* U+00A0 *)
  | String "225" (String "154" (String "128" r)) => trimStart r       (* U+1680 *)
  | String "226" (String "128" (String c r)) =>
      let n := N_of_ascii c in
      if ((128 <=? n)%N && (n <=? 138)%N)                             (* U+2000..200A *)
         || (n =? 168)%N || (n =? 169)%N || (n =? 175)%N              (* U+2028 2029 202F *)
      then trimStart r else s
  | String "226" (String "129" (String "159" r)) => trimStart r       (* U+205F *)
  | String "227" (String "128" (String "128" r)) => trimStart r       (* U+3000 *)
  | String "239" (String "187" (String "191" r)) => trimStart r       (* U+FEFF *)
  | _ => s
  end.

Fixpoint trimEnd (s : string) : string :=
  match s with
  | EmptyString => EmptyString
  | String c r =>
      match trimStart s with
      | EmptyString => EmptyString
      | _ => String c (trimEnd r)
      end
  end.

Definition trim (s : string) : string := trimEnd (trimStart s).

Section Server.

Variable cfg : Config.
Variable env : Env.

(** ** Readings of the environment *)

Definition now : M Z := fun s => (Ok (Date_now env (ticks s)), tick s).

Definition random : M Q := fun s => (Ok (Math_random env (draws s)), draw s).

(** ** The store: [redis], REST or TCP client, or the in-process fallback *)

Record Redis := {
  rpush : string -> string -> M Z;
  lrange : string -> Z -> Z -> M (list string);
  expire : string -> Z -> M bool;
  del : string -> M Z }.

Definition with_mem {A} (f : gmap string (list string) -> A * gmap string (list string)) : M A :=
  fun s => let (a, m) := f (mem s) in (Ok a, set_mem m s).

(** [Array.prototype.slice(start, end)] *)
Definition slice {A} (l : list A) (start stop : Z) : list A :=
  let len := Z.of_nat (length l) in
  let clamp i := if (i <? 0)%Z then Z.max (len + i) 0 else Z.min i len in
  let a := clamp start in
  let b := clamp stop in
  take (Z.to_nat (b - a)) (drop (Z.to_nat a) l).

Definition mem_rpush (k v : string) : M Z :=
  with_mem (fun m =>
    let arr := default [] (m !! k) in
    let arr := arr ++ [v] in
    (Z.of_nat (length arr), <[k := arr]> m)).

Definition mem_lrange (k : string) (s e : Z) : M (list string) :=
  with_mem (fun m =>
    let arr := default [] (m !! k) in
    let stop := if (e =? -1)%Z then Z.of_nat (length arr) else (e + 1)%Z in
    (slice arr s stop, m)).

Definition mem_expire (k : string) (sec : Z) : M bool := ret true.

Definition mem_del (k : string) : M Z :=
  with_mem (fun m => (1%Z, delete k m)).

(** Every call of a method of [redis] is recorded. *)
Definition call {A} (cmd k : string) (op : M A) : M A :=
  let* _ := emit (ERedis cmd k) in op.

Definition memory_redis : Redis :=
  {| rpush := fun k v => call "rpush" k (mem_rpush k v);
     lrange := fun k s e => call "lrange" k (mem_lrange k s e);
     expire := fun k sec => call "expire" k (mem_expire k sec);
     del := fun k => call "del" k (mem_del k) |}.

(** A remote server executes the same commands on its own keyed lists, unless
    the command fails (connection refused, timeout, quota): then the client
    throws and the lists are as they were. *)
Definition remote {A} (op : M A) : M A :=
  fun s =>
    match redis_fault env (cmds s) with
    | Some e => (Throw e, cmd s)
    | None => op (cmd s)
    end.

Definition remote_redis : Redis :=
  {| rpush := fun k v => call "rpush" k (remote (mem_rpush k v));
     lrange := fun k s e => call "lrange" k (remote (mem_lrange k s e));
     expire := fun k sec => call "expire" k (remote (mem_expire k sec));
     del := fun k => call "del" k (remote (mem_del k)) |}.

Definition redis : Redis :=
  match backend cfg with
  | Upstash | IORedis => remote_redis
  | Memory => memory_redis
  end.

(** ** Chat history helpers *)

Definition key (id : string) : string := "session:" +:+ id +:+ ":messages".

Definition pushMsg (id role content : string) (extra : list (string * JSON.value)) : M unit :=
  let* ts := now in
  let msg := JSON.stringify (JSON.Obj (JSON.spread
               [("role", JSON.Str role); ("content", JSON.Str content); ("ts", JSON.Num ts)]
               extra)) in
  let* _ := rpush redis (key id) msg in
  let* _ := expire redis (key id) TTL_SECONDS in
  ret tt.

Fixpoint parse_all (arr : list string) : M (list JSON.value) :=
  match arr with
  | [] => ret []
  | x :: r =>
      match JSON.parse x with
      | Some v => let* vs := parse_all r in ret (v :: vs)
      | None => throw (Error "SyntaxError")
      end
  end.

Definition getHistory (id : string) : M (list JSON.value) :=
  let* arr := lrange redis (key id) 0 (-1) in
  parse_all arr.

Definition resetSession (id : string) : M unit :=
  let* _ := del redis (key id) in ret tt.

(** ** Qdrant + Jina *)

Definition qdrantSearch (query : string) (topK : Z) : M (list Passage.t) :=
  if negb (qdrant_configured cfg) then throw (Error "Missing Qdrant config")
  else fun s =>
    match qdrant_post env query topK with
    | inl e => (Throw e, s)
    | inr ps => (Ok ps, s)
    end.

(** ** Gemini (retry only) *)

Definition askGeminiRaw (prompt : string) : M string :=
  fun s =>
    let s' := log (EPost prompt) (post s) in
    match gemini_post env (posts s) prompt with
    | inl e => (Throw e, s')
    | inr text => (Ok (default EmptyString text), s')
    end.

(** [err?.response?.status] and [err?.response?.data?.error?.code] *)
Definition err_status (err : exn) : option Z :=
  match response err with
  | Some r => Some (status r)
  | None => None
  end.

Definition err_code (err : exn) : option JSON.value :=
  match response err with
  | Some r =>
      match JSON.prop "error" (data r) with
      | Some e => JSON.prop "code" e
      | None => None
      end
  | None => None
  end.

Definition is_num (n : Z) (v : option JSON.value) : bool :=
  match v with
  | Some (JSON.Num m) => (m =? n)%Z
  | _ => false
  end.

Definition retryable (err : exn) : bool :=
  let status := err_status err in
  let code := err_code err in
  bool_decide (status = Some 429%Z) || bool_decide (status = Some 503%Z)
  || is_num 429 code || is_num 503 code.

(** [Math.floor(Math.random() * 250)] *)
Definition jitter (r : Q) : Z := Qfloor (r * 250).

(** How control leaves the [for] loop of [askGemini]. *)
Inductive LoopExit :=
| Return (text : string)   (* [return await askGeminiRaw(prompt)] *)
| FallThrough.             (* the guard [i < LLM_RETRIES] is false *)

(** The loop from the iteration with counter [i] and backoff [delay] on.
    [fuel] bounds the number of iterations that are unfolded. *)
Fixpoint askGemini_loop (fuel : nat) (prompt : string) (i delay : Z) : M LoopExit :=
  if (i <? LLM_RETRIES cfg)%Z then
    match fuel with
    | O => fun s => (Diverge, s)
    | S fuel' =>
        try_catch
          (let* text := askGeminiRaw prompt in ret (Return text))
          (fun err =>
             if retryable err then
               if (i <? LLM_RETRIES cfg - 1)%Z then
                 let* r := random in
                 let* _ := sleep (delay + jitter r) in
                 askGemini_loop fuel' prompt (i + 1) (delay * 2)
               else throw err
             else throw err)
    end
  else ret FallThrough.

Definition askGemini (prompt : string) : M string :=
  let* exit := askGemini_loop (Z.to_nat (LLM_RETRIES cfg)) prompt 0 (LLM_RETRY_MS cfg) in
  match exit with
  | Return text => ret text
  | FallThrough => throw (Error "llm_unavailable")
  end.

(** ** Prompt and fallback *)

Definition context_block (i : nat) (p : Passage.t) : string :=
  "# Source " +:+ num (Z.of_nat i + 1) +:+ " (" +:+ Passage.title p +:+ ")" +:+ LF
  +:+ Passage.chunk p +:+ LF +:+ "URL: " +:+ Passage.url p.

Definition buildPrompt (query : string) (passages : list Passage.t) : string :=
  let ctx := join (LF +:+ LF) (imap context_block passages) in
  "You are a news assistant. Use ONLY the context below. If the answer is unknown, say you are unsure."
  +:+ LF +:+ LF +:+ "## Context" +:+ LF +:+ ctx +:+ LF +:+ LF
  +:+ "## Task" +:+ LF +:+ "Question: " +:+ query +:+ LF
  +:+ "Answer clearly with citations like [S1], [S2] referring to the numbered sources.".

Definition fallback_line (i : nat) (p : Passage.t) : string :=
  "• [S" +:+ num (Z.of_nat i + 1) +:+ "] " +:+ Passage.title p.

Definition busy_notice (query : string) : string :=
  "The model is busy right now. Here are relevant sources for “" +:+ query +:+ "”:" +:+ LF +:+ LF.

Definition busyFallback (query : string) (passages : list Passage.t) : string :=
  let list := join LF (imap fallback_line (slice passages 0 5)) in
  busy_notice query +:+ list.

(** ** Routes *)

Definition unsure : string := "I am unsure. None of the provided text answers that.".

Definition source_of (i : nat) (p : Passage.t) : Source.t :=
  {| Source.id := Z.of_nat i + 1; Source.title := Passage.title p; Source.url := Passage.url p |}.

Definition is_falsy (v : option string) : bool :=
  match v with
  | Some s => String.eqb s EmptyString
  | None => true
  end.

(** The inner [try]/[catch] of [POST /api/chat]: the answer, generated or
    degraded. *)
Definition chat_answer (message : string) (passages : list Passage.t) : M string :=
  let prompt := buildPrompt message passages in
  try_catch
    (let* raw := askGemini prompt in
     ret (if nonempty (trim raw) then trim raw else unsure))
    (fun e =>
       let* _ := console_warn "LLM failed:" (log_arg e) in
       ret (busyFallback message passages)).

(** The steps of [POST /api/chat] after validation. *)
Definition chat_pipeline (sessionId message : string) : M Response :=
  let* _ := pushMsg sessionId "user" message [] in
  let* passages := qdrantSearch message (TOP_K cfg) in
  let* answer := chat_answer message passages in
  let sources := imap source_of passages in
  let* _ := pushMsg sessionId "assistant" answer [] in
  ret {| code := 200; reply := ChatReply answer sources |}.

Definition chat (body : Body.t) : M Response :=
  try_catch
    (if is_falsy (Body.sessionId body) || is_falsy (Body.message body) then
       ret {| code := 400; reply := ErrorReply "sessionId & message required" None |}
     else
       chat_pipeline (default EmptyString (Body.sessionId body))
                     (default EmptyString (Body.message body)))
    (fun e =>
       let* _ := console_error "chat_failed:" (log_arg e) in
       ret {| code := 500; reply := ErrorReply "chat_failed" (Some (message e)) |}).

Definition history (id : string) : M Response :=
  try_catch
    (let* h := getHistory id in
     ret {| code := 200; reply := HistoryReply h |})
    (fun e =>
       let* _ := console_error "history_failed:" (log_arg e) in
       ret {| code := 500; reply := ErrorReply "history_failed" None |}).

Definition reset (id : string) : M Response :=
  try_catch
    (let* _ := resetSession id in
     ret {| code := 200; reply := OkReply |})
    (fun e =>
       let* _ := console_error "reset_failed:" (log_arg e) in
       ret {| code := 500; reply := ErrorReply "reset_failed" None |}).

(** A sequence of appends to one session, as [POST /api/chat] performs
    them turn after turn. *)
Fixpoint pushAll (id : string) (msgs : list (string * string)) : M unit :=
  match msgs with
  | [] => ret tt
  | (role, content) :: rest =>
      let* _ := pushMsg id role content [] in
      pushAll id rest
  end.

(** ** Observations on traces *)

(** The state after a request for [p], and after the backoff wait that
    follows it. *)
Definition posted (p : string) (s : State) : State := log (EPost p) (post s).

Definition slept (d : Z) (s : State) : State :=
  log (ESleep (d + jitter (Math_random env (draws s)))) (draw s).

(** The trace of [n] requests for [prompt] separated by backoff waits that
    start at [delay] and double, the jitter drawn from [Math.random] from its
    [k]-th call on. *)
Fixpoint backoff (n : nat) (prompt : string) (delay : Z) (k : nat) : list Event :=
  match n with
  | O => []
  | S n' =>
      EPost prompt ::
      match n' with
      | O => []
      | S _ => ESleep (delay + jitter (Math_random env k)) :: backoff n' prompt (delay * 2) (S k)
      end
  end.

(** The store accepts every command: it is the in-process one, or a remote
    one without faults. *)
Definition store_reliable : Prop :=
  backend cfg = Memory \/ forall k, redis_fault env k = None.

End Server.

(** The prompts sent to Gemini, their number, and the waits, in a trace. *)
Definition requests (evs : list Event) : list string :=
  omap (fun e => match e with EPost p => Some p | _ => None end) evs.

Definition attempts (evs : list Event) : nat := length (requests evs).

Definition waits (evs : list Event) : list Z :=
  omap (fun e => match e with ESleep ms => Some ms | _ => None end) evs.

(** The calls of [redis] in a trace. *)
Definition store_calls (evs : list Event) : list (string * string) :=
  omap (fun e => match e with ERedis c k => Some (c, k) | _ => None end) evs.

(** The text [pushMsg] stores for a message without extra fields. *)
Definition stored (role content : string) (ts : Z) : string :=
  JSON.stringify (JSON.message_obj role content ts).

(** [s'] is reached from [s] by effects that all satisfy [P]. *)
Definition steps (P : Event -> Prop) (s s' : State) : Prop :=
  exists evs, trace s' = trace s ++ evs /\ Forall P evs.

(** [m] returns or throws, and its effects all satisfy [P]. *)
Definition safe {A} (P : Event -> Prop) (m : M A) : Prop :=
  forall s, exists r s', m s = (r, s') /\ r <> Diverge /\ steps P s s'.

(** Kinds of events: calls of the store; the requests for [p] and the waits
    of [askGemini]; anything but a request for another prompt. *)
Definition is_store_call (e : Event) : Prop :=
  match e with ERedis _ _ => True | _ => False end.

Definition is_generation (p : string) (e : Event) : Prop :=
  match e with
  | EPost q => q = p
  | ESleep _ => True
  | _ => False
  end.

Definition is_chat_event (p : string) (e : Event) : Prop :=
  match e with
  | EPost q => q = p
  | _ => True
  end.

(** [t] occurs in [s]. *)
Definition contains (s t : string) : Prop :=
  exists a b : string, s = a +:+ t +:+ b.

(** ** Sample configurations and environments *)

Module Sample.

(** The defaults of the source: five passages, three attempts, 800 ms. *)
Definition config (b : Backend) : Config :=
  {| TOP_K := 5; LLM_RETRIES := 3; LLM_RETRY_MS := 800;
     qdrant_configured := true; backend := b |}.

Definition http_error (code : Z) : exn :=
  {| message := "Request failed";
     response := Some {| status := code; data := JSON.Null |} |}.

Definition passage_a : Passage.t :=
  {| Passage.score := 0.5%float; Passage.title := "Rates held"; Passage.url := "https://news.example/a";
     Passage.chunk := "The central bank held rates." |}.

Definition passage_b : Passage.t :=
  {| Passage.score := 0.25%float; Passage.title := "Markets rally"; Passage.url := "https://news.example/b";
     Passage.chunk := "Shares rose on Monday." |}.

(** Gemini answers every request with [reply]; Redis fails at the commands
    listed in [faults]. *)
Definition world (reply : exn + option string) (faults : list nat) : Env :=
  {| Date_now := fun k => (1700000000000 + Z.of_nat k)%Z;
     Math_random := fun _ => (1 # 2)%Q;
     gemini_post := fun _ _ => reply;
     qdrant_post := fun _ _ => inr [passage_a; passage_b];
     redis_fault := fun k => if bool_decide (k ∈ faults) then Some (Error "ECONNRESET") else None |}.

Definition busy : Env := world (inl (http_error 429)) [].
Definition answering : Env := world (inr (Some " Rates were held [S1]. ")) [].

Definition request : Body.t :=
  {| Body.sessionId := Some "s1"; Body.message := Some "rates?" |}.

(** The store of this world fails at its third command, the [rpush] of the
    assistant turn. *)
Definition outage : Env :=
  world (inr (Some " Rates were held [S1]. ")) [2%nat].

End Sample.

(** ** Further observations *)

Section Observations.

Variable cfg : Config.
Variable env : Env.

(** The state after a command has gone through to the store: a remote
    client has counted it, the in-process store keeps no count. *)
Definition issued (s : State) : State :=
  match backend cfg with
  | Upstash | IORedis => cmd s
  | Memory => s
  end.

(** The text [pushMsg] appends, extra fields included. *)
Definition stored_with (role content : string) (ts : Z)
    (extra : list (string * JSON.value)) : string :=
  JSON.stringify (JSON.Obj (JSON.spread
    [("role", JSON.Str role); ("content", JSON.Str content); ("ts", JSON.Num ts)] extra)).

(** The state after a [pushMsg] that the store accepted. *)
Definition pushed (sid role content : string) (extra : list (string * JSON.value))
    (s : State) : State :=
  issued (log (ERedis "expire" (key sid))
    (appended (key sid) (stored_with role content (Date_now env (ticks s)) extra)
       (issued (log (ERedis "rpush" (key sid)) (tick s))))).

(** The log of a session, empty when the session has none. *)
Definition session_log (sid : string) (s : State) : list string :=
  default [] (mem s !! key sid).

(** The events a run has added to the trace. *)
Definition added (s s' : State) : list Event := drop (length (trace s)) (trace s').

End Observations.

(** A field of the request body that [!field] rejects: absent, or the empty
    string. *)
Definition missing_or_empty (v : option string) : Prop :=
  v = None \/ v = Some EmptyString.

(** A world like [Sample.answering] in which Gemini refuses the first [n]
    requests with 503. *)
Definition recovering (n : nat) : Env :=
  {| Date_now := Date_now Sample.answering;
     Math_random := Math_random Sample.answering;
     gemini_post := fun k p =>
       if (k <? n)%nat then inl (Sample.http_error 503)
       else gemini_post Sample.answering k p;
     qdrant_post := qdrant_post Sample.answering;
     redis_fault := redis_fault Sample.answering |}.

(** The characters a JSON text can begin with, white space apart: those of
    an object, an array, a string, a number, [true], [false] and [null]. *)
Definition starts_value (c : ascii) : bool :=
  Ascii.eqb c dquote ||
  match JSON.index_of c "{[-0123456789tfn" with
  | Some _ => true
  | None => false
  end.

(** [x] does not begin like a JSON text: after its leading white space it is
    over, or goes on with a character that begins no JSON value. *)
Definition not_json_start (x : string) : Prop :=
  match JSON.skip_ws x with
  | EmptyString => True
  | String c _ => starts_value c = false
  end.


(** * Properties *)

(** ** Strings *)

Lemma append_assoc (a b c : string) : (a +:+ b) +:+ c = a +:+ (b +:+ c).
Proof. induction a as [|x a IH]; [reflexivity|]. cbv [String.append] in *. now rewrite IH. Qed.

Lemma append_nil_r (a : string) : a +:+ EmptyString = a.
Proof. induction a as [|x a IH]; [reflexivity|]. cbv [String.append] in *. now rewrite IH. Qed.

Lemma append_cons (x : ascii) (a b : string) : String x a +:+ b = String x (a +:+ b).
Proof. reflexivity. Qed.

Lemma append_nil_l (a : string) : EmptyString +:+ a = a.
Proof. reflexivity. Qed.

Lemma length_append (a b : string) :
  String.length (a +:+ b) = (String.length a + String.length b)%nat.
Proof.
  induction a as [|x a IH]; [reflexivity|].
  rewrite append_cons. cbn [String.length]. now rewrite IH.
Qed.

Example trim_example : trim (" " +:+ LF +:+ "a b" +:+ LF +:+ " ") = "a b".
Proof. reflexivity. Qed.

Example stringify_message :
  JSON.stringify (JSON.Obj [("role", JSON.Str "user"); ("content", JSON.Str ("a" +:+ String dquote "b")); ("ts", JSON.Num 17)])
  = "{" +:+ String dquote "role" +:+ String dquote ":" +:+ String dquote "user" +:+ String dquote ","
    +:+ String dquote "content" +:+ String dquote ":" +:+ String dquote "a" +:+ String backslash (String dquote "b")
    +:+ String dquote "," +:+ String dquote "ts" +:+ String dquote ":17}".
Proof. reflexivity. Qed.

Example parse_nested :
  JSON.parse (JSON.stringify
    (JSON.Obj [("sources", JSON.Arr [JSON.Obj [("id", JSON.Num 1); ("title", JSON.Str ("t" +:+ LF))]; JSON.Null]);
               ("ok", JSON.Bool true); ("n", JSON.Num (-40))]))
  = Some (JSON.Obj [("sources", JSON.Arr [JSON.Obj [("id", JSON.Num 1); ("title", JSON.Str ("t" +:+ LF))]; JSON.Null]);
               ("ok", JSON.Bool true); ("n", JSON.Num (-40))]).
Proof. vm_compute. reflexivity. Qed.

(** ** JSON: what is printed is read back *)

Module JSONFacts.
Import JSON.

Lemma parse_chars_eq (c : ascii) (r : string) :
  parse_chars (String c r) =
  if Ascii.eqb c dquote then Some (EmptyString, r) else parse_char parse_chars c r.
Proof. reflexivity. Qed.

Lemma parse_chars_escape (c : ascii) (x : string) :
  parse_chars (escape c +:+ x) =
  match parse_chars x with
  | Some (t, r) => Some (String c t, r)
  | None => None
  end.
Proof.
  destruct c as [[] [] [] [] [] [] [] []];
    cbv -[parse_chars]; rewrite parse_chars_eq; cbv -[parse_chars]; reflexivity.
Qed.

Lemma parse_chars_escape_all (s rest : string) :
  parse_chars (escape_all s +:+ String dquote rest) = Some (s, rest).
Proof.
  induction s as [|c s IH]; [reflexivity|].
  cbn [escape_all]. rewrite append_assoc, parse_chars_escape.
  now rewrite IH.
Qed.

Lemma read_uint_printed (u : Decimal.uint) (rest : string) :
  no_digit_ahead rest ->
  read_uint (NilEmpty.string_of_uint u +:+ rest) = (u, rest).
Proof.
  intros Hrest.
  induction u; cbn [NilEmpty.string_of_uint]; rewrite ?append_cons, ?append_nil_l;
    [| cbn; rewrite IHu; reflexivity ..].
  destruct rest as [|c r]; [reflexivity|]. cbn in *. now rewrite Hrest.
Qed.

Lemma parse_number_printed (u : Decimal.uint) (rest : string) :
  u <> Decimal.Nil ->
  no_digit_ahead rest ->
  parse_number (NilEmpty.string_of_uint u +:+ rest) = Some (Z.of_int (Decimal.Pos u), rest)
  /\ parse_number (String "-" (NilEmpty.string_of_uint u +:+ rest))
     = Some (Z.of_int (Decimal.Neg u), rest).
Proof.
  intros Hnil Hrest.
  destruct u as [|u|u|u|u|u|u|u|u|u|u]; [congruence|..];
    cbn [NilEmpty.string_of_uint]; rewrite append_cons;
    unfold parse_number; cbn [read_uint]; cbv [digit Ascii.eqb Bool.eqb];
    rewrite (read_uint_printed u rest Hrest); split; reflexivity.
Qed.

Lemma parse_number_num (n : Z) (rest : string) :
  no_digit_ahead rest ->
  parse_number (num n +:+ rest) = Some (n, rest).
Proof.
  intros Hrest. unfold num.
  rewrite <- (DecimalZ.of_to n) at 2.
  destruct n as [|p|p]; cbn [Z.to_int NilZero.string_of_int].
  - now apply (parse_number_printed (Decimal.D0 Decimal.Nil)).
  - pose proof (Unsigned.to_uint_nonnil p) as Hnil.
    replace (NilZero.string_of_uint (Pos.to_uint p)) with (NilEmpty.string_of_uint (Pos.to_uint p))
      by (now destruct (Pos.to_uint p)).
    now apply parse_number_printed.
  - pose proof (Unsigned.to_uint_nonnil p) as Hnil.
    replace (NilZero.string_of_uint (Pos.to_uint p)) with (NilEmpty.string_of_uint (Pos.to_uint p))
      by (now destruct (Pos.to_uint p)).
    rewrite append_cons. now apply parse_number_printed.
Qed.

Lemma skip_ws_dquote (r : string) : skip_ws (String dquote r) = String dquote r.
Proof. reflexivity. Qed.

Lemma parse_value_quote (f : nat) (s rest : string) :
  parse_value (S f) (quote s +:+ rest) = Some (Str s, rest).
Proof.
  unfold quote. rewrite append_cons, append_assoc, append_cons, append_nil_l.
  cbn [parse_value]. rewrite skip_ws_dquote.
  cbn [Ascii.eqb Bool.eqb dquote]. now rewrite parse_chars_escape_all.
Qed.

Lemma parse_value_printed (f : nat) (u : Decimal.uint) (rest : string) :
  u <> Decimal.Nil ->
  no_digit_ahead rest ->
  parse_value (S f) (NilEmpty.string_of_uint u +:+ rest) = Some (Num (Z.of_int (Decimal.Pos u)), rest)
  /\ parse_value (S f) (String "-" (NilEmpty.string_of_uint u +:+ rest))
     = Some (Num (Z.of_int (Decimal.Neg u)), rest).
Proof.
  intros Hnil Hrest.
  destruct (parse_number_printed u rest Hnil Hrest) as [Hpos Hneg].
  split.
  - destruct u as [|u|u|u|u|u|u|u|u|u|u]; [congruence|..];
      cbn [NilEmpty.string_of_uint] in *; rewrite append_cons in *;
      cbn [parse_value skip_ws is_ws Ascii.eqb Bool.eqb dquote];
      rewrite Hpos; reflexivity.
  - cbn [parse_value skip_ws is_ws Ascii.eqb Bool.eqb dquote]. now rewrite Hneg.
Qed.

Lemma parse_value_num (f : nat) (n : Z) (rest : string) :
  no_digit_ahead rest ->
  parse_value (S f) (num n +:+ rest) = Some (Num n, rest).
Proof.
  intros Hrest. unfold num.
  rewrite <- (DecimalZ.of_to n) at 2.
  destruct n as [|p|p]; cbn [Z.to_int NilZero.string_of_int].
  - now apply (parse_value_printed f (Decimal.D0 Decimal.Nil)).
  - pose proof (Unsigned.to_uint_nonnil p) as Hnil.
    replace (NilZero.string_of_uint (Pos.to_uint p)) with (NilEmpty.string_of_uint (Pos.to_uint p))
      by (now destruct (Pos.to_uint p)).
    now apply parse_value_printed.
  - pose proof (Unsigned.to_uint_nonnil p) as Hnil.
    replace (NilZero.string_of_uint (Pos.to_uint p)) with (NilEmpty.string_of_uint (Pos.to_uint p))
      by (now destruct (Pos.to_uint p)).
    rewrite append_cons. now apply parse_value_printed.
Qed.

(** One member [key:value] of an object, read by [parse_members]. *)
Lemma parse_member (f : nat) (k r2 : string) (acc : list (string * value)) :
  parse_members (S f) (quote k +:+ String ":" r2) acc =
  match parse_value f r2 with
  | Some (v, r3) =>
      match skip_ws r3 with
      | String "," r4 => parse_members f r4 (set k v acc)
      | String "}" r4 => Some (set k v acc, r4)
      | _ => None
      end
  | None => None
  end.
Proof.
  unfold quote. rewrite append_cons, append_assoc, append_cons, append_nil_l.
  cbn [parse_members]. rewrite skip_ws_dquote.
  cbn [Ascii.eqb Bool.eqb dquote]. rewrite parse_chars_escape_all.
  reflexivity.
Qed.

Lemma parse_value_object (f : nat) (k r : string) :
  parse_value (S f) (String "{" (quote k +:+ r)) =
  match parse_members f (quote k +:+ r) [] with
  | Some (o, r') => Some (Obj o, r')
  | None => None
  end.
Proof.
  cbn [parse_value skip_ws is_ws Ascii.eqb Bool.eqb dquote].
  unfold quote. rewrite append_cons, skip_ws_dquote. reflexivity.
Qed.

Lemma parse_stringify_message (role content : string) (ts : Z) :
  parse (stringify (message_obj role content ts)) = Some (message_obj role content ts).
Proof.
  unfold parse, message_obj.
  cbn [stringify map join].
  rewrite !append_assoc, !append_cons, !append_nil_l.
  match goal with |- context [String.length ?t] =>
    assert (exists n, String.length t = S (S (S (S n)))) as [n ->]
  end.
  { unfold quote at 1. change (escape_all "role") with "role".
    rewrite !append_cons. cbn [String.length]. eauto. }
  cbn [Nat.mul Nat.add]. rewrite Nat.add_comm. cbn [Nat.add].
  rewrite parse_value_object, parse_member, parse_value_quote.
  cbn [skip_ws is_ws].
  rewrite parse_member, parse_value_quote.
  cbn [skip_ws is_ws].
  rewrite parse_member, parse_value_num by reflexivity.
  reflexivity.
Qed.

End JSONFacts.

(** ** The Gemini client *)

Section GeminiFacts.

Variable cfg : Config.
Variable env : Env.

Lemma askGemini_loop_step (fuel : nat) (p : string) (i d : Z) (s : State) :
  askGemini_loop cfg env (S fuel) p i d s =
  if (i <? LLM_RETRIES cfg)%Z then
    match gemini_post env (posts s) p with
    | inr text => (Ok (Return (default EmptyString text)), posted p s)
    | inl err =>
        if retryable err then
          if (i <? LLM_RETRIES cfg - 1)%Z
          then askGemini_loop cfg env fuel p (i + 1) (d * 2) (slept env d (posted p s))
          else (Throw err, posted p s)
        else (Throw err, posted p s)
    end
  else (Ok FallThrough, s).
Proof.
  cbn [askGemini_loop].
  destruct (i <? LLM_RETRIES cfg)%Z; [|reflexivity].
  unfold try_catch, bind, askGeminiRaw, ret, throw.
  fold (posted p s).
  destruct (gemini_post env (posts s) p) as [err|text]; [|reflexivity].
  destruct (retryable err); [|reflexivity].
  destruct (i <? LLM_RETRIES cfg - 1)%Z; reflexivity.
Qed.

Lemma askGemini_loop_exit (fuel : nat) (p : string) (i d : Z) (s : State) :
  (LLM_RETRIES cfg <= i)%Z ->
  askGemini_loop cfg env fuel p i d s = (Ok FallThrough, s).
Proof.
  intros Hi. destruct fuel; cbn [askGemini_loop];
    destruct (Z.ltb_spec i (LLM_RETRIES cfg)); (lia || reflexivity).
Qed.

(** The fuel [askGemini] gives to its loop is enough. *)
Lemma askGemini_loop_total (fuel : nat) (p : string) (i d : Z) (s : State) :
  (Z.to_nat (LLM_RETRIES cfg - i) <= fuel)%nat ->
  fst (askGemini_loop cfg env fuel p i d s) <> Diverge.
Proof.
  revert i d s. induction fuel as [|fuel IH]; intros i d s Hfuel.
  - rewrite askGemini_loop_exit by lia. discriminate.
  - rewrite askGemini_loop_step.
    destruct (Z.ltb_spec i (LLM_RETRIES cfg)); [|discriminate].
    destruct (gemini_post env (posts s) p) as [err|text]; [|discriminate].
    destruct (retryable err); [|discriminate].
    destruct (Z.ltb_spec i (LLM_RETRIES cfg - 1)); [|discriminate].
    apply IH. lia.
Qed.

(** While the counter is below [LLM_RETRIES], the loop is not left through
    its guard. *)
Lemma askGemini_loop_no_fallthrough (fuel : nat) (p : string) (i d : Z) (s : State) :
  (i < LLM_RETRIES cfg)%Z ->
  fst (askGemini_loop cfg env fuel p i d s) <> Ok FallThrough.
Proof.
  revert i d s. induction fuel as [|fuel IH]; intros i d s Hi.
  - cbn [askGemini_loop]. destruct (Z.ltb_spec i (LLM_RETRIES cfg)); [discriminate|lia].
  - rewrite askGemini_loop_step.
    destruct (Z.ltb_spec i (LLM_RETRIES cfg)); [|lia].
    destruct (gemini_post env (posts s) p) as [err|text]; [|discriminate].
    destruct (retryable err); [|discriminate].
    destruct (Z.ltb_spec i (LLM_RETRIES cfg - 1)); [|discriminate].
    apply IH. lia.
Qed.

(** What the loop throws is what a request to Gemini threw. *)
Lemma askGemini_loop_throws (fuel : nat) (p : string) (i d : Z) (s s' : State) (err : exn) :
  askGemini_loop cfg env fuel p i d s = (Throw err, s') ->
  exists k, gemini_post env k p = inl err.
Proof.
  revert i d s. induction fuel as [|fuel IH]; intros i d s.
  - cbn [askGemini_loop]. destruct (i <? LLM_RETRIES cfg)%Z; discriminate.
  - rewrite askGemini_loop_step.
    destruct (i <? LLM_RETRIES cfg)%Z; [|discriminate].
    destruct (gemini_post env (posts s) p) as [e|text] eqn:Hpost; [|discriminate].
    destruct (retryable e); [destruct (i <? LLM_RETRIES cfg - 1)%Z; [apply IH|]|];
      intros [= <- <-]; eauto.
Qed.

(** C10. When [LLM_RETRIES >= 1] the statement [throw new Error('llm_unavailable')]
    after the loop of [askGemini] is never reached: the loop, started as
    [askGemini] starts it, ends by returning the text of the model or by
    rethrowing the error of a request, never by running past its guard (and
    it does end). *)
Theorem askGemini_trailing_throw_unreachable (prompt : string) (s : State) :
  (1 <= LLM_RETRIES cfg)%Z ->
  let exit := fst (askGemini_loop cfg env (Z.to_nat (LLM_RETRIES cfg)) prompt 0
                     (LLM_RETRY_MS cfg) s) in
  exit <> Ok FallThrough /\
  ((exists text, exit = Ok (Return text))
   \/ (exists err k, exit = Throw err /\ gemini_post env k prompt = inl err)).
Proof.
  intros Hn exit.
  assert (Hft : exit <> Ok FallThrough)
    by (apply askGemini_loop_no_fallthrough; lia).
  assert (Hdiv : exit <> Diverge)
    by (apply askGemini_loop_total; lia).
  split; [exact Hft|]. subst exit.
  destruct (askGemini_loop cfg env _ prompt 0 (LLM_RETRY_MS cfg) s) as [[[text|]|err|] s'] eqn:Hrun;
    cbn [fst] in *; try congruence; [eauto|].
  right. apply askGemini_loop_throws in Hrun as (k & Hk). eauto.
Qed.

(** *** Retrying *)

Lemma retryable_iff (err : exn) :
  retryable err = true <->
  err_status err = Some 429%Z \/ err_status err = Some 503%Z \/
  err_code err = Some (JSON.Num 429) \/ err_code err = Some (JSON.Num 503).
Proof.
  unfold retryable, is_num.
  rewrite !orb_true_iff, !bool_decide_eq_true.
  split.
  - intros [[[H|H]|H]|H]; auto;
      destruct (err_code err) as [[| | m | | |]|]; try discriminate;
      apply Z.eqb_eq in H; subst; auto.
  - intros [H|[H|[H|H]]]; auto; rewrite H; cbn; auto.
Qed.

Lemma jitter_range (r : Q) :
  (0 <= r < 1)%Q -> (0 <= jitter r < 250)%Z.
Proof.
  intros [Hlo Hhi]. unfold jitter. split.
  - change 0%Z with (Qfloor 0). apply Qfloor_resp_le.
    apply Qmult_le_0_compat; [exact Hlo | discriminate].
  - rewrite Zlt_Qlt.
    apply Qle_lt_trans with (r * 250)%Q; [apply Qfloor_le|].
    apply Qlt_le_trans with (1 * 250)%Q; [|discriminate].
    apply Qmult_lt_compat_r; [reflexivity | exact Hhi].
Qed.

Lemma requests_backoff (n : nat) (p : string) (d : Z) (k : nat) :
  requests (backoff env n p d k) = replicate n p.
Proof.
  revert d k. induction n as [|n IH]; intros d k; [reflexivity|].
  destruct n as [|n]; [reflexivity|].
  change (requests (backoff env (S (S n)) p d k))
    with (p :: requests (backoff env (S n) p (d * 2) (S k))).
  now rewrite IH.
Qed.

Lemma waits_backoff (n : nat) (p : string) (d : Z) (k : nat) :
  waits (backoff env n p d k) =
  map (fun j => d * 2 ^ Z.of_nat j + jitter (Math_random env (k + j)))%Z (seq 0 (pred n)).
Proof.
  revert d k. induction n as [|n IH]; intros d k; [reflexivity|].
  destruct n as [|n]; [reflexivity|].
  change (waits (backoff env (S (S n)) p d k))
    with ((d + jitter (Math_random env k))%Z :: waits (backoff env (S n) p (d * 2) (S k))).
  rewrite IH. cbn [pred seq map].
  f_equal.
  - rewrite Nat.add_0_r. f_equal. change (2 ^ Z.of_nat 0)%Z with 1%Z. lia.
  - rewrite <- seq_shift, map_map.
    apply map_ext. intros j.
    rewrite Nat2Z.inj_succ, Z.pow_succ_r by lia.
    replace (S k + j)%nat with (k + S j)%nat by lia. f_equal. lia.
Qed.

(** When every call fails with a retryable error, the loop uses up its
    budget: one request per remaining iteration, a wait between two of them,
    and the error of the last request is thrown. *)
Lemma askGemini_loop_exhausts (n : nat) (p : string) (i d : Z) (s : State) :
  (forall k q, exists e, gemini_post env k q = inl e /\ retryable e = true) ->
  (LLM_RETRIES cfg - i = Z.of_nat (S n))%Z ->
  exists e s',
    askGemini_loop cfg env (S n) p i d s = (Throw e, s') /\
    gemini_post env (posts s + n) p = inl e /\
    trace s' = trace s ++ backoff env (S n) p d (draws s) /\
    mem s' = mem s /\ ticks s' = ticks s /\ cmds s' = cmds s /\
    posts s' = (posts s + S n)%nat /\ draws s' = (draws s + n)%nat.
Proof.
  intros Hfail. revert i d s.
  induction n as [|n IH]; intros i d s Hi; rewrite askGemini_loop_step;
    destruct (Z.ltb_spec i (LLM_RETRIES cfg)); try lia;
    destruct (Hfail (posts s) p) as (e & He & Hre); rewrite He, Hre;
    destruct (Z.ltb_spec i (LLM_RETRIES cfg - 1)); try lia.
  - exists e, (posted p s). rewrite Nat.add_0_r.
    repeat split; try assumption; cbn; lia.
  - destruct (IH (i + 1)%Z (d * 2)%Z (slept env d (posted p s))) as (e' & s' & Hrun & Hlast & Htr & Hm & Ht & Hc & Hp & Hd);
      [lia|].
    exists e', s'. rewrite Hrun.
    cbn [slept posted log post draw posts draws trace mem ticks cmds] in *.
    repeat split; try assumption.
    + rewrite <- Hlast. f_equal. lia.
    + rewrite Htr, <- !app_assoc. reflexivity.
    + lia.
    + lia.
Qed.

(** C3. If Gemini answers every request with HTTP status 429, [askGemini]
    sends exactly [LLM_RETRIES] requests and then fails; between two
    requests it waits, the [j]-th wait being [LLM_RETRY_MS * 2^j] plus a
    jitter in [0, 250), so the first wait is at least [LLM_RETRY_MS] and the
    delay doubles at each further retry. *)
Theorem askGemini_always_429 (prompt : string) (s : State) :
  (0 <= LLM_RETRIES cfg)%Z ->
  (forall k q, exists e, gemini_post env k q = inl e /\ err_status e = Some 429%Z) ->
  (forall k, (0 <= Math_random env k < 1)%Q) ->
  exists e s' new,
    askGemini cfg env prompt s = (Throw e, s') /\
    ((1 <= LLM_RETRIES cfg)%Z -> err_status e = Some 429%Z) /\
    trace s' = trace s ++ new /\
    new = backoff env (Z.to_nat (LLM_RETRIES cfg)) prompt (LLM_RETRY_MS cfg) (draws s) /\
    Z.of_nat (attempts new) = LLM_RETRIES cfg /\
    requests new = replicate (Z.to_nat (LLM_RETRIES cfg)) prompt /\
    waits new =
      map (fun j => LLM_RETRY_MS cfg * 2 ^ Z.of_nat j + jitter (Math_random env (draws s + j)))%Z
          (seq 0 (Z.to_nat (LLM_RETRIES cfg - 1))) /\
    (forall k, 0 <= jitter (Math_random env k) < 250)%Z /\
    (forall ms, head (waits new) = Some ms -> (LLM_RETRY_MS cfg <= ms)%Z).
Proof.
  intros Hn H429 Hrand.
  assert (Hjit : forall k, (0 <= jitter (Math_random env k) < 250)%Z)
    by (intros k; apply jitter_range, Hrand).
  assert (Hfail : forall k q, exists e, gemini_post env k q = inl e /\ retryable e = true).
  { intros k q. destruct (H429 k q) as (e & He & Hst). exists e. split; [exact He|].
    apply retryable_iff. auto. }
  set (new := backoff env (Z.to_nat (LLM_RETRIES cfg)) prompt (LLM_RETRY_MS cfg) (draws s)).
  assert (Hobs :
    Z.of_nat (attempts new) = LLM_RETRIES cfg /\
    requests new = replicate (Z.to_nat (LLM_RETRIES cfg)) prompt /\
    waits new =
      map (fun j => LLM_RETRY_MS cfg * 2 ^ Z.of_nat j + jitter (Math_random env (draws s + j)))%Z
          (seq 0 (Z.to_nat (LLM_RETRIES cfg - 1))) /\
    (forall k, 0 <= jitter (Math_random env k) < 250)%Z /\
    (forall ms, head (waits new) = Some ms -> (LLM_RETRY_MS cfg <= ms)%Z)).
  { assert (Hw : waits new =
      map (fun j => LLM_RETRY_MS cfg * 2 ^ Z.of_nat j + jitter (Math_random env (draws s + j)))%Z
          (seq 0 (Z.to_nat (LLM_RETRIES cfg - 1)))).
    { unfold new. rewrite waits_backoff. do 2 f_equal.
      lia. }
    repeat split; try apply Hjit.
    - unfold attempts, new. rewrite requests_backoff, length_replicate. lia.
    - apply requests_backoff.
    - exact Hw.
    - intros ms. rewrite Hw.
      destruct (Z.to_nat (LLM_RETRIES cfg - 1)) as [|m]; [discriminate|].
      cbn [seq map head]. intros [= <-].
      specialize (Hjit (draws s + 0)%nat). change (2 ^ Z.of_nat 0)%Z with 1%Z. lia. }
  unfold askGemini, bind. subst new.
  destruct (Z.to_nat (LLM_RETRIES cfg)) as [|n] eqn:En.
  - rewrite askGemini_loop_exit by lia.
    exists (Error "llm_unavailable"), s, []. rewrite app_nil_r.
    repeat split; try reflexivity; try apply Hobs. lia.
  - destruct (askGemini_loop_exhausts n prompt 0 (LLM_RETRY_MS cfg) s Hfail)
      as (e & s' & Hrun & Hlast & Htr & _); [lia|].
    rewrite Hrun. eexists e, s', _.
    repeat split; try eassumption; try reflexivity; try apply Hobs.
    intros _. destruct (H429 (posts s + n)%nat prompt) as (e' & He' & Hst). congruence.
Qed.

(** *** Which failures are retried *)

Lemma askGemini_loop_posts (fuel : nat) (p : string) (i d : Z) (s : State) :
  (posts s <= posts (snd (askGemini_loop cfg env fuel p i d s)))%nat.
Proof.
  revert i d s. induction fuel as [|fuel IH]; intros i d s.
  - cbn [askGemini_loop]. destruct (i <? LLM_RETRIES cfg)%Z; cbn; lia.
  - rewrite askGemini_loop_step.
    destruct (i <? LLM_RETRIES cfg)%Z; [|cbn; lia].
    destruct (gemini_post env (posts s) p) as [err|text]; [|cbn; lia].
    destruct (retryable err); [|cbn; lia].
    destruct (i <? LLM_RETRIES cfg - 1)%Z; [|cbn; lia].
    etrans; [|apply IH]. cbn. lia.
Qed.

Lemma askGemini_loop_posts_once (fuel : nat) (p : string) (i d : Z) (s : State) :
  (i < LLM_RETRIES cfg)%Z ->
  (S (posts s) <= posts (snd (askGemini_loop cfg env (S fuel) p i d s)))%nat.
Proof.
  intros Hi. rewrite askGemini_loop_step.
  destruct (Z.ltb_spec i (LLM_RETRIES cfg)); [|lia].
  destruct (gemini_post env (posts s) p) as [err|text]; [|cbn; lia].
  destruct (retryable err); [|cbn; lia].
  destruct (i <? LLM_RETRIES cfg - 1)%Z; [|cbn; lia].
  etrans; [|apply askGemini_loop_posts]. cbn. lia.
Qed.

(** C4, amended. In an iteration of the loop of [askGemini] whose request
    fails with [err], a further request follows if and only if [err] carries
    status 429 or 503, or the code 429 or 503 in its payload, and the
    iteration is not the last one ([i < LLM_RETRIES - 1]): the loop then
    waits the backoff and goes on.  After any other failure, an error of
    another kind or any error of the last iteration, the error is thrown at
    once: the state is the one right after the failed request, with no wait
    and no further request. *)
Theorem askGemini_retries_iff (fuel : nat) (p : string) (i d : Z) (s : State) (err : exn) :
  (i < LLM_RETRIES cfg)%Z ->
  (Z.to_nat (LLM_RETRIES cfg - i) <= fuel)%nat ->
  gemini_post env (posts s) p = inl err ->
  let run := askGemini_loop cfg env fuel p i d s in
  ((posts s + 2 <= posts (snd run))%nat <->
     (err_status err = Some 429%Z \/ err_status err = Some 503%Z \/
      err_code err = Some (JSON.Num 429) \/ err_code err = Some (JSON.Num 503))
     /\ (i < LLM_RETRIES cfg - 1)%Z) /\
  (retryable err = true -> (i < LLM_RETRIES cfg - 1)%Z ->
     run = askGemini_loop cfg env (pred fuel) p (i + 1) (d * 2) (slept env d (posted p s))) /\
  (retryable err = false \/ (LLM_RETRIES cfg - 1 <= i)%Z ->
     run = (Throw err, posted p s)).
Proof.
  intros Hi Hfuel Herr run. subst run.
  destruct fuel as [|fuel]; [lia|]. cbn [pred].
  rewrite askGemini_loop_step, Herr, <- retryable_iff.
  destruct (Z.ltb_spec i (LLM_RETRIES cfg)); [|lia].
  destruct (retryable err) eqn:Hre.
  - destruct (Z.ltb_spec i (LLM_RETRIES cfg - 1)) as [Hlt|Hge].
    + split; [split|split].
      * intros _. split; [reflexivity | assumption].
      * intros _. destruct fuel as [|fuel]; [lia|].
        pose proof (askGemini_loop_posts_once fuel p (i + 1) (d * 2)
                      (slept env d (posted p s))) as Hp.
        cbn [slept posted log post draw posts] in Hp. lia.
      * reflexivity.
      * intros [?|?]; [discriminate | lia].
    + split; [split|split].
      * cbn [snd posted log post posts]. lia.
      * intros [_ ?]. lia.
      * intros. lia.
      * reflexivity.
  - split; [split|split].
    + cbn [snd posted log post posts]. lia.
    + intros [? _]. discriminate.
    + discriminate.
    + reflexivity.
Qed.

End GeminiFacts.

(** A world in which the hypotheses of [askGemini_always_429] hold. *)
Lemma askGemini_always_429_witness :
  exists e s' new,
    askGemini (Sample.config Memory) Sample.busy "q" init = (Throw e, s') /\
    trace s' = trace init ++ new /\
    Z.of_nat (attempts new) = 3%Z /\
    waits new = [925; 1725]%Z.
Proof.
  destruct (askGemini_always_429 (Sample.config Memory) Sample.busy "q" init)
    as (e & s' & new & Hrun & _ & Htr & Hnew & Hatt & _ & Hw & _).
  - cbn. lia.
  - intros k q. exists (Sample.http_error 429). split; reflexivity.
  - intros k. unfold Qle, Qlt. cbn. lia.
  - exists e, s', new. repeat split; assumption.
Defined.

(** Started with the defaults, [askGemini] does reach the end of its
    budget without running past the guard. *)
Lemma askGemini_trailing_throw_unreachable_witness :
  fst (askGemini_loop (Sample.config Memory) Sample.busy 3 "q" 0 800 init) <> Ok FallThrough.
Proof.
  apply (askGemini_trailing_throw_unreachable (Sample.config Memory) Sample.busy "q" init).
  cbn. lia.
Defined.

(** C4 as stated fails at the last attempt: with the default three attempts,
    the third request fails with status 429 and no further request follows. *)
Lemma askGemini_last_failure_not_retried :
  ~ (forall (cfg : Config) (env : Env) (fuel : nat) (p : string) (i d : Z) (s : State) (err : exn),
       (i < LLM_RETRIES cfg)%Z ->
       (Z.to_nat (LLM_RETRIES cfg - i) <= fuel)%nat ->
       gemini_post env (posts s) p = inl err ->
       ((posts s + 2 <= posts (snd (askGemini_loop cfg env fuel p i d s)))%nat <->
        (err_status err = Some 429%Z \/ err_status err = Some 503%Z \/
         err_code err = Some (JSON.Num 429) \/ err_code err = Some (JSON.Num 503)))).
Proof.
  intros H.
  specialize (H (Sample.config Memory) Sample.busy 1%nat "q" 2%Z 3200%Z init (Sample.http_error 429)).
  destruct H as [_ H]; [cbn; lia | cbn; lia | reflexivity |].
  specialize (H (or_introl eq_refl)).
  vm_compute in H. lia.
Qed.

Lemma askGemini_retries_iff_witness :
  askGemini_loop (Sample.config Memory) Sample.busy 3 "q" 0 800 init
  = askGemini_loop (Sample.config Memory) Sample.busy 2 "q" 1 1600
      (slept Sample.busy 800 (posted "q" init)).
Proof.
  apply (askGemini_retries_iff (Sample.config Memory) Sample.busy 3 "q" 0 800 init
           (Sample.http_error 429)); try reflexivity; cbn; lia.
Defined.

(** ** The session store *)

Section StoreFacts.

Variable cfg : Config.
Variable env : Env.

Lemma slice_prefix {A} (l : list A) (n : Z) :
  (0 <= n)%Z -> slice l 0 n = take (Z.to_nat n) l.
Proof.
  intros Hn. unfold slice.
  change (0 <? 0)%Z with false. cbv iota.
  destruct (Z.ltb_spec n 0); [lia|].
  rewrite (Z.min_l 0) by lia. rewrite Z.sub_0_r. cbn [Z.to_nat drop].
  destruct (Z.le_ge_cases n (Z.of_nat (length l))).
  - now rewrite Z.min_l by lia.
  - rewrite Z.min_r by lia. rewrite Nat2Z.id.
    rewrite !take_ge; (reflexivity || lia).
Qed.

Lemma slice_all {A} (l : list A) : slice l 0 (Z.of_nat (length l)) = l.
Proof. rewrite slice_prefix by lia. rewrite Nat2Z.id. apply firstn_all. Qed.

(** In process, [pushMsg] cannot fail: it reads the clock, appends the text
    and refreshes the expiry. *)
Lemma pushMsg_memory (sid role content : string) (s : State) :
  backend cfg = Memory ->
  pushMsg cfg env sid role content [] s =
  (Ok tt, log (ERedis "expire" (key sid))
            (appended (key sid) (stored role content (Date_now env (ticks s)))
               (log (ERedis "rpush" (key sid)) (tick s)))).
Proof.
  intros Hb. unfold pushMsg, redis. rewrite Hb. reflexivity.
Qed.

(** Sessions do not share a key. *)
Lemma append_cancel_r (a b c : string) : a +:+ c = b +:+ c -> a = b.
Proof.
  revert b. induction a as [|x a IH]; intros [|y b] H.
  - reflexivity.
  - exfalso. apply (f_equal String.length) in H.
    rewrite append_cons in H. cbn [String.length] in H.
    rewrite append_nil_l, length_append in H. lia.
  - exfalso. apply (f_equal String.length) in H.
    rewrite append_cons in H. cbn [String.length] in H.
    rewrite append_nil_l, length_append in H. lia.
  - rewrite !append_cons in H. injection H as -> H. f_equal. now apply IH.
Qed.

Lemma key_inj (a b : string) : key a = key b -> a = b.
Proof.
  unfold key. intros H. apply String.app_inj in H.
  now apply append_cancel_r in H.
Qed.

(** In process, an append to a session leaves the logs of the others alone. *)
Lemma pushMsg_other_session (sid other role content : string) (s : State) :
  backend cfg = Memory -> other <> sid ->
  mem (snd (pushMsg cfg env other role content [] s)) !! key sid = mem s !! key sid.
Proof.
  intros Hb Hne. rewrite pushMsg_memory by assumption.
  cbn [snd log appended set_mem mem tick].
  apply lookup_insert_ne. intros H. now apply key_inj in H.
Qed.

Lemma parse_all_ok (arr : list string) (vs : list JSON.value) (s : State) :
  Forall2 (fun x v => JSON.parse x = Some v) arr vs ->
  parse_all arr s = (Ok vs, s).
Proof.
  induction 1 as [|x v arr vs Hx _ IH]; [reflexivity|].
  cbn [parse_all]. rewrite Hx. unfold bind. now rewrite IH.
Qed.

Lemma getHistory_memory (sid : string) (s : State) :
  backend cfg = Memory ->
  getHistory cfg env sid s =
  parse_all (default [] (mem s !! key sid)) (log (ERedis "lrange" (key sid)) s).
Proof.
  intros Hb. unfold getHistory, redis. rewrite Hb.
  unfold bind; cbn. now rewrite slice_all.
Qed.

Lemma pushAll_memory (sid : string) (msgs : list (string * string)) (s : State) :
  backend cfg = Memory ->
  exists s',
    pushAll cfg env sid msgs s = (Ok tt, s') /\
    default [] (mem s' !! key sid) =
      default [] (mem s !! key sid)
      ++ imap (fun k m => stored (fst m) (snd m) (Date_now env (ticks s + k))) msgs.
Proof.
  intros Hb. revert s.
  induction msgs as [|[role content] msgs IH]; intros s.
  - exists s. split; [reflexivity|]. cbn [imap]. now rewrite app_nil_r.
  - cbn [pushAll]. unfold bind. rewrite pushMsg_memory by assumption.
    match goal with |- context [pushAll _ _ _ _ ?s1] => destruct (IH s1) as (s' & Hrun & Hmem) end.
    exists s'. split; [exact Hrun|]. rewrite Hmem.
    cbn [log appended set_mem tick mem ticks fst snd imap].
    rewrite lookup_insert_eq. cbn [from_option Datatypes.id]. rewrite <- app_assoc. cbn [app].
    rewrite Nat.add_0_r. do 2 f_equal.
    apply imap_ext. intros k m _. unfold compose. do 2 f_equal. lia.
Qed.

(** C8. With the in-process store, whatever [pushMsg] appends to a session
    is read back by [getHistory] after what the session held before, in the
    order of the appends and with the same [role] and [content] (and [ts]). *)
Theorem pushMsg_getHistory_roundtrip
    (sid : string) (msgs : list (string * string)) (before : list JSON.value) (s : State) :
  backend cfg = Memory ->
  Forall2 (fun x v => JSON.parse x = Some v) (default [] (mem s !! key sid)) before ->
  exists s1 s2 new,
    pushAll cfg env sid msgs s = (Ok tt, s1) /\
    getHistory cfg env sid s1 = (Ok (before ++ new), s2) /\
    new = imap (fun k m => JSON.message_obj (fst m) (snd m) (Date_now env (ticks s + k))) msgs /\
    map (JSON.prop "role") new = map (fun m => Some (JSON.Str (fst m))) msgs /\
    map (JSON.prop "content") new = map (fun m => Some (JSON.Str (snd m))) msgs.
Proof.
  intros Hb Hbefore.
  destruct (pushAll_memory sid msgs s Hb) as (s1 & Hrun & Hmem).
  eexists s1, _, _. split; [exact Hrun|].
  rewrite getHistory_memory by assumption.
  split; [|split; [reflexivity|]].
  - apply parse_all_ok. rewrite Hmem.
    apply Forall2_app; [exact Hbefore|].
    generalize (ticks s). clear.
    induction msgs as [|m msgs IH]; intros t; cbn [imap]; constructor.
    + apply JSONFacts.parse_stringify_message.
    + rewrite (imap_ext _ (fun k m => stored (fst m) (snd m) (Date_now env (S t + k)))),
              (imap_ext (_ ∘ S) (fun k m => JSON.message_obj (fst m) (snd m) (Date_now env (S t + k)))).
      * apply IH.
      * intros k x _. unfold compose. do 2 f_equal. lia.
      * intros k x _. unfold compose. do 2 f_equal. lia.
  - generalize (ticks s). clear.
    induction msgs as [|m msgs IH]; intros t; [split; reflexivity|].
    cbn [imap map].
    rewrite (imap_ext (_ ∘ S) (fun k m => JSON.message_obj (fst m) (snd m) (Date_now env (S t + k))))
      by (intros k x _; unfold compose; do 2 f_equal; lia).
    destruct (IH (S t)) as [-> ->]. split; reflexivity.
Qed.

End StoreFacts.

(** Two turns appended to a fresh session are read back in order. *)
Lemma pushMsg_getHistory_roundtrip_witness :
  exists s1 s2,
    pushAll (Sample.config Memory) Sample.busy "s1" [("user", "rates?"); ("assistant", "held")] init
      = (Ok tt, s1) /\
    getHistory (Sample.config Memory) Sample.busy "s1" s1
      = (Ok [JSON.message_obj "user" "rates?" 1700000000000;
             JSON.message_obj "assistant" "held" 1700000000001], s2).
Proof.
  destruct (pushMsg_getHistory_roundtrip (Sample.config Memory) Sample.busy "s1"
              [("user", "rates?"); ("assistant", "held")] [] init)
    as (s1 & s2 & new & Hpush & Hread & -> & _).
  - reflexivity.
  - constructor.
  - exists s1, s2. split; [exact Hpush | exact Hread].
Defined.

(** ** The chat route *)

Section ChatFacts.

Variable cfg : Config.
Variable env : Env.

Lemma steps_refl (P : Event -> Prop) (s : State) : steps P s s.
Proof. exists []. now rewrite app_nil_r. Qed.

Lemma steps_trans (P : Event -> Prop) (s1 s2 s3 : State) :
  steps P s1 s2 -> steps P s2 s3 -> steps P s1 s3.
Proof.
  intros (e1 & H1 & F1) (e2 & H2 & F2). exists (e1 ++ e2).
  rewrite H2, H1, app_assoc. split; [reflexivity | now apply Forall_app].
Qed.

Lemma steps_weaken (P Q : Event -> Prop) (s s' : State) :
  (forall e, P e -> Q e) -> steps P s s' -> steps Q s s'.
Proof.
  intros HPQ (evs & H & F). exists evs. split; [exact H|].
  eapply Forall_impl; eauto.
Qed.

Ltac all_events := repeat (apply List.Forall_cons; [exact I|]); apply List.Forall_nil.

Lemma steps_log (P : Event -> Prop) (e : Event) (s s' : State) :
  P e -> trace s' = trace s ++ [e] -> steps P s s'.
Proof. intros He H. exists [e]. split; [exact H | now constructor]. Qed.

Lemma safe_ret {A} (P : Event -> Prop) (a : A) : safe P (ret a).
Proof. intros s. exists (Ok a), s. repeat split; [discriminate | apply steps_refl]. Qed.

Lemma safe_throw {A} (P : Event -> Prop) (e : exn) : safe P (throw (A := A) e).
Proof. intros s. exists (Throw e), s. repeat split; [discriminate | apply steps_refl]. Qed.

Lemma safe_bind {A B} (P : Event -> Prop) (m : M A) (k : A -> M B) :
  safe P m -> (forall a, safe P (k a)) -> safe P (bind m k).
Proof.
  intros Hm Hk s. unfold bind.
  destruct (Hm s) as (r & s1 & -> & Hr & H1).
  destruct r as [a|e|]; [| |congruence].
  - destruct (Hk a s1) as (r2 & s2 & -> & Hr2 & H2).
    exists r2, s2. repeat split; [exact Hr2 | eapply steps_trans; eauto].
  - exists (Throw e), s1. repeat split; [discriminate | exact H1].
Qed.

Lemma safe_try_catch {A} (P : Event -> Prop) (m : M A) (h : exn -> M A) :
  safe P m -> (forall e, safe P (h e)) -> safe P (try_catch m h).
Proof.
  intros Hm Hh s. unfold try_catch.
  destruct (Hm s) as (r & s1 & -> & Hr & H1).
  destruct r as [a|e|]; [| |congruence].
  - exists (Ok a), s1. repeat split; [discriminate | exact H1].
  - destruct (Hh e s1) as (r2 & s2 & -> & Hr2 & H2).
    exists r2, s2. repeat split; [exact Hr2 | eapply steps_trans; eauto].
Qed.

Lemma safe_emit (P : Event -> Prop) (e : Event) : P e -> safe P (emit e).
Proof.
  intros He s. exists (Ok tt), (log e s).
  repeat split; [discriminate | now apply (steps_log P e)].
Qed.

Lemma safe_weaken {A} (P Q : Event -> Prop) (m : M A) :
  (forall e, P e -> Q e) -> safe P m -> safe Q m.
Proof.
  intros HPQ Hm s. destruct (Hm s) as (r & s' & H & Hr & Hs).
  exists r, s'. repeat split; [exact H | exact Hr | eapply steps_weaken; eauto].
Qed.

(** Readings and updates that leave no event. *)
Lemma safe_silent {A} (P : Event -> Prop) (m : M A) :
  (forall s, exists a s', m s = (Ok a, s') /\ trace s' = trace s) -> safe P m.
Proof.
  intros Hm s. destruct (Hm s) as (a & s' & -> & Htr).
  exists (Ok a), s'. repeat split; [discriminate|].
  exists []. now rewrite app_nil_r.
Qed.

Lemma safe_remote {A} (P : Event -> Prop) (m : M A) :
  safe P m -> safe P (remote env m).
Proof.
  intros Hm s. unfold remote.
  destruct (redis_fault env (cmds s)) as [e|].
  - exists (Throw e), (cmd s). repeat split; [discriminate | apply (steps_refl P (cmd s))].
  - destruct (Hm (cmd s)) as (r & s' & -> & Hr & Hs).
    exists r, s'. repeat split; assumption.
Qed.

Lemma safe_with_mem {A} (P : Event -> Prop)
    (f : gmap string (list string) -> A * gmap string (list string)) :
  safe P (with_mem f).
Proof.
  apply safe_silent. intros s. unfold with_mem.
  destruct (f (mem s)) as [a m]. eauto.
Qed.

Lemma safe_redis (P : Event -> Prop) :
  (forall c k, P (ERedis c k)) ->
  (forall k v, safe P (rpush (redis cfg env) k v)) /\
  (forall k a b, safe P (lrange (redis cfg env) k a b)) /\
  (forall k t, safe P (expire (redis cfg env) k t)) /\
  (forall k, safe P (del (redis cfg env) k)).
Proof.
  intros HP. unfold redis.
  destruct (backend cfg); cbn [rpush lrange expire del remote_redis memory_redis];
    repeat split; intros; unfold call;
    (apply safe_bind; [apply safe_emit, HP | intros _]);
    try apply safe_remote;
    first [apply safe_with_mem | apply safe_ret].
Qed.

(** [pushMsg] returns or throws, and only calls the store. *)
Lemma pushMsg_safe (sid role content : string) (extra : list (string * JSON.value)) :
  safe is_store_call (pushMsg cfg env sid role content extra).
Proof.
  destruct (safe_redis is_store_call) as (Hpush & _ & Hexp & _); [intros; exact I|].
  unfold pushMsg.
  apply safe_bind; [apply safe_silent; intros s; unfold now; eauto | intros ts].
  apply safe_bind; [apply Hpush | intros _].
  apply safe_bind; [apply Hexp | intros _].
  apply safe_ret.
Qed.

Lemma pushMsg_reliable (sid role content : string) (extra : list (string * JSON.value)) (s : State) :
  store_reliable cfg env ->
  exists s', pushMsg cfg env sid role content extra s = (Ok tt, s').
Proof.
  intros Hrel. unfold store_reliable in Hrel.
  unfold pushMsg, redis, bind, now.
  destruct (backend cfg) eqn:Hb; cbn [rpush expire remote_redis memory_redis];
    unfold call, remote, bind, emit, mem_rpush, mem_expire, with_mem, ret.
  1,2: destruct Hrel as [?|Hrel]; [discriminate|]; rewrite !Hrel; eauto.
  eauto.
Qed.

(** *** Generation *)

Lemma askGemini_loop_safe (fuel : nat) (p : string) (i d : Z) :
  (Z.to_nat (LLM_RETRIES cfg - i) <= fuel)%nat ->
  safe (is_generation p) (askGemini_loop cfg env fuel p i d).
Proof.
  revert i d. induction fuel as [|fuel IH]; intros i d Hfuel s.
  - rewrite askGemini_loop_exit by lia.
    exists (Ok FallThrough), s. repeat split; [discriminate | apply steps_refl].
  - rewrite askGemini_loop_step.
    assert (Hpost : steps (is_generation p) s (posted p s))
      by (apply (steps_log _ (EPost p)); reflexivity).
    destruct (Z.ltb_spec i (LLM_RETRIES cfg));
      [|exists (Ok FallThrough), s; repeat split; [discriminate | apply steps_refl]].
    destruct (gemini_post env (posts s) p) as [err|text];
      [|eexists _, _; repeat split; [discriminate | exact Hpost]].
    destruct (retryable err);
      [|eexists _, _; repeat split; [discriminate | exact Hpost]].
    destruct (Z.ltb_spec i (LLM_RETRIES cfg - 1));
      [|eexists _, _; repeat split; [discriminate | exact Hpost]].
    destruct (IH (i + 1)%Z (d * 2)%Z ltac:(lia) (slept env d (posted p s)))
      as (r & s' & -> & Hr & Hs).
    exists r, s'. repeat split; [exact Hr|].
    eapply steps_trans; [exact Hpost|].
    eapply steps_trans; [|exact Hs].
    eapply (steps_log _ (ESleep _)); [exact I | reflexivity].
Qed.

Lemma askGemini_safe (p : string) : safe (is_generation p) (askGemini cfg env p).
Proof.
  unfold askGemini. apply safe_bind; [apply askGemini_loop_safe; lia|].
  intros [text|]; [apply safe_ret | apply safe_throw].
Qed.

(** When no request to Gemini succeeds, [askGemini] throws. *)
Lemma askGemini_loop_fails (fuel : nat) (p : string) (i d : Z) (s : State) :
  (forall k q, exists e, gemini_post env k q = inl e) ->
  forall text s', askGemini_loop cfg env fuel p i d s <> (Ok (Return text), s').
Proof.
  intros Hfail. revert i d s. induction fuel as [|fuel IH]; intros i d s text s'.
  - cbn [askGemini_loop]. destruct (i <? LLM_RETRIES cfg)%Z; discriminate.
  - rewrite askGemini_loop_step.
    destruct (i <? LLM_RETRIES cfg)%Z; [|discriminate].
    destruct (Hfail (posts s) p) as (e & ->).
    destruct (retryable e); [|discriminate].
    destruct (i <? LLM_RETRIES cfg - 1)%Z; [apply IH | discriminate].
Qed.

Lemma askGemini_fails (p : string) (s : State) :
  (forall k q, exists e, gemini_post env k q = inl e) ->
  exists e s', askGemini cfg env p s = (Throw e, s').
Proof.
  intros Hfail.
  destruct (askGemini_safe p s) as (r & s' & Hrun & Hr & _).
  destruct r as [text|e|]; [|eauto|congruence].
  exfalso. revert Hrun. unfold askGemini, bind.
  destruct (askGemini_loop cfg env _ p 0 (LLM_RETRY_MS cfg) s) as [[[t|]|e|] s1] eqn:Hloop;
    try discriminate.
  now apply askGemini_loop_fails in Hloop.
Qed.

Lemma append_not_empty (a b : string) : a <> EmptyString -> a +:+ b <> EmptyString.
Proof. destruct a; [congruence | discriminate]. Qed.

Lemma busyFallback_not_empty (q : string) (ps : list Passage.t) :
  busyFallback q ps <> EmptyString.
Proof. unfold busyFallback, busy_notice. discriminate. Qed.

(** The inner [try]/[catch] always produces an answer, and a non-empty one:
    the trimmed text of the model, the canned text when that is empty, or the
    fallback when [askGemini] has thrown. *)
Lemma chat_answer_spec (msg : string) (ps : list Passage.t) (s : State) :
  exists a s',
    chat_answer cfg env msg ps s = (Ok a, s') /\
    a <> EmptyString /\
    steps (is_chat_event (buildPrompt msg ps)) s s' /\
    ((exists raw, askGemini cfg env (buildPrompt msg ps) s = (Ok raw, s') /\
        a = if nonempty (trim raw) then trim raw else unsure)
     \/ (exists e s1, askGemini cfg env (buildPrompt msg ps) s = (Throw e, s1) /\
          s' = log (EWarn "LLM failed:" (log_arg e)) s1 /\
          a = busyFallback msg ps)).
Proof.
  unfold chat_answer, try_catch, bind.
  destruct (askGemini_safe (buildPrompt msg ps) s) as (r & s1 & -> & Hr & Hs).
  assert (Hs' : steps (is_chat_event (buildPrompt msg ps)) s s1).
  { eapply steps_weaken; [|exact Hs]. intros [] H; cbn in *; auto. }
  destruct r as [raw|e|]; [| |congruence].
  - eexists _, s1. split; [reflexivity|]. split; [|split; [exact Hs'|left; eauto]].
    unfold nonempty. destruct (String.eqb_spec (trim raw) EmptyString); cbn; [discriminate|assumption].
  - eexists _, _. split; [reflexivity|].
    split; [apply busyFallback_not_empty|]. split; [|right; eauto].
    eapply steps_trans; [exact Hs'|].
    eapply (steps_log _ (EWarn _ _)); [exact I | reflexivity].
Qed.

(** *** The handler *)

Lemma qdrantSearch_ok (q : string) (k : Z) (ps : list Passage.t) (s s' : State) :
  qdrantSearch cfg env q k s = (Ok ps, s') ->
  s' = s /\ qdrant_configured cfg = true /\ qdrant_post env q k = inr ps.
Proof.
  unfold qdrantSearch.
  destruct (qdrant_configured cfg); cbn [negb]; [|discriminate].
  destruct (qdrant_post env q k); intros [= <- <-]; auto.
Qed.

(** How a request gets the answer 200: every step of the pipeline went
    through. *)
Lemma chat_200_inv (body : Body.t) (s s' : State) (resp : Response) :
  chat cfg env body s = (Ok resp, s') ->
  code resp = 200%Z ->
  exists sid msg s1 ps a s3,
    Body.sessionId body = Some sid /\ Body.message body = Some msg /\
    sid <> EmptyString /\ msg <> EmptyString /\
    pushMsg cfg env sid "user" msg [] s = (Ok tt, s1) /\
    qdrant_post env msg (TOP_K cfg) = inr ps /\
    chat_answer cfg env msg ps s1 = (Ok a, s3) /\
    pushMsg cfg env sid "assistant" a [] s3 = (Ok tt, s') /\
    resp = {| code := 200; reply := ChatReply a (imap source_of ps) |}.
Proof.
  unfold chat, try_catch.
  destruct (Body.sessionId body) as [sid|], (Body.message body) as [msg|]; cbn [is_falsy orb default from_option Datatypes.id];
    try (rewrite ?orb_true_r; intros [= <- <-]; discriminate).
  destruct (String.eqb_spec sid EmptyString) as [|Hsid];
    [cbn [orb]; intros [= <- <-]; discriminate|].
  destruct (String.eqb_spec msg EmptyString) as [|Hmsg];
    [cbn [orb]; intros [= <- <-]; discriminate|].
  cbn [orb]. unfold chat_pipeline, bind, console_error, emit, ret.
  destruct (pushMsg cfg env sid "user" msg [] s) as [[[]|e|] s1] eqn:E1;
    [| intros [= <- <-]; discriminate | discriminate].
  destruct (qdrantSearch cfg env msg (TOP_K cfg) s1) as [[ps|e|] s2] eqn:E2;
    [| intros [= <- <-]; discriminate | discriminate].
  apply qdrantSearch_ok in E2 as (-> & _ & Hps).
  destruct (chat_answer cfg env msg ps s1) as [[a|e|] s3] eqn:E3;
    [| intros [= <- <-]; discriminate | discriminate].
  destruct (pushMsg cfg env sid "assistant" a [] s3) as [[[]|e|] s4] eqn:E4;
    [| intros [= <- <-]; discriminate | discriminate].
  intros [= <- <-] _.
  exists sid, msg, s1, ps, a, s3. repeat split; assumption.
Qed.

(** The handler always responds: it neither throws nor runs on for ever. *)
Lemma chat_responds (body : Body.t) (s : State) :
  exists resp s', chat cfg env body s = (Ok resp, s').
Proof.
  unfold chat, try_catch.
  destruct (is_falsy (Body.sessionId body) || is_falsy (Body.message body)); [unfold ret; eauto|].
  set (sid := default EmptyString (Body.sessionId body)).
  set (msg := default EmptyString (Body.message body)).
  unfold chat_pipeline, bind, console_error, emit, ret.
  destruct (pushMsg_safe sid "user" msg [] s) as (r1 & s1 & -> & Hr1 & _).
  destruct r1 as [[]|e|]; [|eauto|congruence].
  unfold qdrantSearch, throw.
  destruct (qdrant_configured cfg); cbn [negb]; [|eauto].
  destruct (qdrant_post env msg (TOP_K cfg)) as [e|ps]; [eauto|].
  destruct (chat_answer_spec msg ps s1) as (a & s3 & -> & _).
  destruct (pushMsg_safe sid "assistant" a [] s3) as (r4 & s4 & -> & Hr4 & _).
  destruct r4 as [[]|e|]; [eauto|eauto|congruence].
Qed.

(** C7. When [sessionId] or [message] is missing from the body, the handler
    answers 400 with [{error: "sessionId & message required"}] and leaves
    the state as it was: nothing is appended to any log, and no method of
    the store is called. *)
Theorem chat_rejects_missing_field (body : Body.t) (s : State) :
  Body.sessionId body = None \/ Body.message body = None ->
  chat cfg env body s =
  (Ok {| code := 400; reply := ErrorReply "sessionId & message required" None |}, s).
Proof.
  intros Hmiss. unfold chat, try_catch, ret.
  destruct Hmiss as [-> | ->]; cbn [is_falsy orb]; [reflexivity|].
  now rewrite orb_true_r.
Qed.

(** C9. The answer of every 200 response is a non-empty string: it is the
    trimmed text of the model when that is not empty, the canned "I am
    unsure" text when it is, and the busy fallback, whose notice is not
    empty, when [askGemini] has thrown. *)
Theorem chat_answer_not_empty (body : Body.t) (s s' : State) (resp : Response) :
  chat cfg env body s = (Ok resp, s') ->
  code resp = 200%Z ->
  exists answer sources sid msg ps s1,
    reply resp = ChatReply answer sources /\
    answer <> EmptyString /\
    Body.sessionId body = Some sid /\
    Body.message body = Some msg /\
    pushMsg cfg env sid "user" msg [] s = (Ok tt, s1) /\
    qdrant_post env msg (TOP_K cfg) = inr ps /\
    match fst (askGemini cfg env (buildPrompt msg ps) s1) with
    | Ok raw => answer = if nonempty (trim raw) then trim raw else unsure
    | Throw _ =>
        answer = busyFallback msg ps /\
        answer = busy_notice msg +:+ join LF (imap fallback_line (slice ps 0 5)) /\
        busy_notice msg <> EmptyString
    | Diverge => False
    end.
Proof.
  intros Hrun Hcode.
  destruct (chat_200_inv body s s' resp Hrun Hcode)
    as (sid & msg & s1 & ps & a & s3 & Hsid & Hmsg & _ & _ & Hpush & Hps & Hans & _ & ->).
  destruct (chat_answer_spec msg ps s1) as (a' & s3' & Hans' & Hne & _ & Hcases).
  rewrite Hans in Hans'. injection Hans' as <- <-.
  exists a, (imap source_of ps), sid, msg, ps, s1.
  repeat split; try assumption.
  destruct Hcases as [(raw & -> & ->) | (e & s2 & -> & _ & ->)]; cbn [fst].
  - reflexivity.
  - repeat split. unfold busy_notice. discriminate.
Qed.

Lemma requests_of_chat_events (p : string) (evs : list Event) :
  Forall (is_chat_event p) evs ->
  forall q, q ∈ requests evs -> q = p.
Proof.
  intros Hall q Hq. unfold requests in Hq.
  apply list_elem_of_omap in Hq as (e & He & Hq).
  rewrite Forall_forall in Hall. specialize (Hall e He).
  destruct e; try discriminate. injection Hq as <-. exact Hall.
Qed.

Lemma pushMsg_steps (p : string) (sid role content : string) (r : outcome unit) (s s' : State) :
  pushMsg cfg env sid role content [] s = (r, s') ->
  steps (is_chat_event p) s s'.
Proof.
  intros Hrun.
  destruct (pushMsg_safe sid role content [] s) as (r' & s'' & Hrun' & _ & Hs).
  rewrite Hrun in Hrun'. injection Hrun' as <- <-.
  eapply steps_weaken; [|exact Hs]. intros [] H; cbn in *; auto; contradiction.
Qed.

Lemma contains_prepend (a s t : string) : contains s t -> contains (a +:+ s) t.
Proof.
  intros (x & y & ->). exists (a +:+ x), y. now rewrite append_assoc.
Qed.

Lemma contains_append (s b t : string) : contains s t -> contains (s +:+ b) t.
Proof.
  intros (x & y & ->). exists x, (y +:+ b). now rewrite !append_assoc.
Qed.

Lemma join_contains (sep : string) (l : list string) (i : nat) (x : string) :
  l !! i = Some x -> contains (join sep l) x.
Proof.
  revert i. induction l as [|y l IH]; intros i Hx; [discriminate|].
  destruct i as [|i].
  - injection Hx as ->. destruct l as [|z l]; cbn [join].
    + exists EmptyString, EmptyString. now rewrite append_nil_r.
    + exists EmptyString, (sep +:+ join sep (z :: l)). reflexivity.
  - cbn [lookup list_lookup] in Hx. destruct l as [|z l]; [discriminate|].
    change (join sep (y :: z :: l)) with (y +:+ sep +:+ join sep (z :: l)).
    apply contains_prepend, contains_prepend. now apply (IH i).
Qed.

(** The prompt holds the context block of every passage. *)
Lemma buildPrompt_contains_block (msg : string) (ps : list Passage.t) (i : nat) (p : Passage.t) :
  ps !! i = Some p -> contains (buildPrompt msg ps) (context_block i p).
Proof.
  intros Hp. unfold buildPrompt.
  do 5 apply contains_prepend. apply contains_append.
  apply (join_contains _ _ i). now rewrite list_lookup_imap, Hp.
Qed.

(** C6. In every 200 response the sources are the retrieved passages in
    their order, [sources[i].id] is [i + 1], and every prompt sent to Gemini
    for the request is the one built from the same passages; that prompt
    contains, for the passage at index [i], the context block headed
    [# Source i+1] with the title and the url of [sources[i]]: a passage has
    the same number in the prompt and in the response. *)
Theorem chat_citations_consistent
    (body : Body.t) (s s' : State) (answer : string) (sources : list Source.t) :
  chat cfg env body s = (Ok {| code := 200; reply := ChatReply answer sources |}, s') ->
  exists msg ps evs,
    Body.message body = Some msg /\
    qdrant_post env msg (TOP_K cfg) = inr ps /\
    sources = imap source_of ps /\
    (forall i src, sources !! i = Some src -> Source.id src = (Z.of_nat i + 1)%Z) /\
    trace s' = trace s ++ evs /\
    (forall q, q ∈ requests evs -> q = buildPrompt msg ps) /\
    (forall i p, ps !! i = Some p ->
       exists src,
         sources !! i = Some src /\
         Source.id src = (Z.of_nat i + 1)%Z /\ Source.title src = Passage.title p /\ Source.url src = Passage.url p /\
         imap context_block ps !! i =
           Some ("# Source " +:+ num (Source.id src) +:+ " (" +:+ Source.title src +:+ ")" +:+ LF
                 +:+ Passage.chunk p +:+ LF +:+ "URL: " +:+ Source.url src) /\
         contains (buildPrompt msg ps)
           ("# Source " +:+ num (Source.id src) +:+ " (" +:+ Source.title src +:+ ")" +:+ LF
            +:+ Passage.chunk p +:+ LF +:+ "URL: " +:+ Source.url src)).
Proof.
  intros Hrun.
  destruct (chat_200_inv body s s' _ Hrun eq_refl)
    as (sid & msg & s1 & ps & a & s3 & _ & Hmsg & _ & _ & Hpush & Hps & Hans & Hpush' & Heq).
  injection Heq as -> ->.
  destruct (chat_answer_spec msg ps s1) as (a' & s3' & Hans' & _ & Hgen & _).
  rewrite Hans in Hans'. injection Hans' as <- <-.
  assert (Hall : steps (is_chat_event (buildPrompt msg ps)) s s').
  { eapply steps_trans; [eapply pushMsg_steps; exact Hpush|].
    eapply steps_trans; [exact Hgen|]. eapply pushMsg_steps; exact Hpush'. }
  destruct Hall as (evs & Htr & Hevs).
  exists msg, ps, evs. repeat split; try assumption.
  - intros i src. rewrite list_lookup_imap.
    destruct (ps !! i); intros [= <-]. reflexivity.
  - now apply requests_of_chat_events.
  - intros i p Hp. exists (source_of i p).
    rewrite !list_lookup_imap, Hp. repeat split.
    now apply (buildPrompt_contains_block msg ps i p).
Qed.

Lemma join_cons (sep x : string) (l : list string) :
  exists rest, join sep (x :: l) = x +:+ rest.
Proof.
  destruct l as [|y l]; cbn [join].
  - exists EmptyString. now rewrite append_nil_r.
  - eauto.
Qed.

(** C5, amended. For a valid request whose retrieval returns passages, when
    every request to Gemini fails and the store accepts the appends of the
    two turns, the handler answers 200 with the busy fallback: the notice
    followed by one line [• [S<i>] <title>] for each of the first five
    passages at most, numbered from 1; the answer is not empty and contains
    the title of the first passage. *)
Theorem chat_degrades_to_sources
    (body : Body.t) (sid msg : string) (ps : list Passage.t) (s : State) :
  Body.sessionId body = Some sid -> sid <> EmptyString ->
  Body.message body = Some msg -> msg <> EmptyString ->
  store_reliable cfg env ->
  qdrant_configured cfg = true ->
  qdrant_post env msg (TOP_K cfg) = inr ps ->
  ps <> [] ->
  (forall k q, exists e, gemini_post env k q = inl e) ->
  exists s' answer lines p0,
    chat cfg env body s =
      (Ok {| code := 200; reply := ChatReply answer (imap source_of ps) |}, s') /\
    answer <> EmptyString /\
    answer = busy_notice msg +:+ join LF lines /\
    lines = imap fallback_line (take 5 ps) /\
    (1 <= length lines <= 5)%nat /\
    (forall i p, take 5 ps !! i = Some p ->
       lines !! i = Some ("• [S" +:+ num (Z.of_nat i + 1) +:+ "] " +:+ Passage.title p)) /\
    head ps = Some p0 /\
    contains answer (Passage.title p0).
Proof.
  intros Hsid Hsid' Hmsg Hmsg' Hrel Hcfg Hps Hne Hfail.
  destruct (pushMsg_reliable sid "user" msg [] s Hrel) as (s1 & Hpush).
  destruct (chat_answer_spec msg ps s1) as (a & s3 & Hans & Hane & _ & Hcases).
  destruct (askGemini_fails (buildPrompt msg ps) s1 Hfail) as (e & s2 & Hask).
  destruct Hcases as [(raw & Hask' & _) | (e' & s2' & _ & _ & ->)]; [congruence|].
  destruct (pushMsg_reliable sid "assistant" (busyFallback msg ps) [] s3 Hrel) as (s' & Hpush').
  destruct ps as [|p0 ps']; [congruence|].
  exists s', (busyFallback msg (p0 :: ps')), (imap fallback_line (take 5 (p0 :: ps'))), p0.
  split; [|split; [exact Hane|split; [|split; [reflexivity|split; [|split; [|split; [reflexivity|]]]]]]].
  - unfold chat, try_catch. rewrite Hsid, Hmsg. cbn [is_falsy default from_option Datatypes.id].
    destruct (String.eqb_spec sid EmptyString); [contradiction|].
    destruct (String.eqb_spec msg EmptyString); [contradiction|].
    cbn [orb]. unfold chat_pipeline, bind.
    rewrite Hpush. unfold qdrantSearch. rewrite Hcfg, Hps. cbn [negb].
    rewrite Hans, Hpush'. reflexivity.
  - unfold busyFallback. now rewrite slice_prefix by lia.
  - rewrite length_imap, length_take. cbn [length]. lia.
  - intros i p Hp. rewrite list_lookup_imap, Hp. reflexivity.
  - unfold busyFallback. rewrite slice_prefix by lia.
    change (take (Z.to_nat 5) (p0 :: ps')) with (p0 :: take 4 ps').
    cbn [imap]. destruct (join_cons LF (fallback_line 0 p0) (imap (fallback_line ∘ S) (take 4 ps')))
      as (rest & ->).
    exists (busy_notice msg +:+ "• [S" +:+ num (Z.of_nat 0 + 1) +:+ "] "), rest.
    unfold fallback_line. now rewrite !append_assoc.
Qed.

(** C1, amended. When a request has reached step 6 and [pushMsg] throws [e]
    while it appends the assistant turn, the handler logs [chat_failed] and
    answers 500 with [{error: "chat_failed", detail: e.message}]; the answer
    is not delivered. *)
Theorem chat_fails_when_assistant_turn_not_stored
    (body : Body.t) (sid msg answer : string) (ps : list Passage.t)
    (s s1 s3 s4 : State) (e : exn) :
  Body.sessionId body = Some sid -> sid <> EmptyString ->
  Body.message body = Some msg -> msg <> EmptyString ->
  pushMsg cfg env sid "user" msg [] s = (Ok tt, s1) ->
  qdrantSearch cfg env msg (TOP_K cfg) s1 = (Ok ps, s1) ->
  chat_answer cfg env msg ps s1 = (Ok answer, s3) ->
  pushMsg cfg env sid "assistant" answer [] s3 = (Throw e, s4) ->
  chat cfg env body s =
  (Ok {| code := 500; reply := ErrorReply "chat_failed" (Some (message e)) |},
   log (EError "chat_failed:" (log_arg e)) s4).
Proof.
  intros Hsid Hsid' Hmsg Hmsg' Hpush Hq Hans Hpush'.
  unfold chat, try_catch. rewrite Hsid, Hmsg. cbn [is_falsy default from_option Datatypes.id].
  destruct (String.eqb_spec sid EmptyString); [contradiction|].
  destruct (String.eqb_spec msg EmptyString); [contradiction|].
  cbn [orb]. unfold chat_pipeline, bind.
  now rewrite Hpush, Hq, Hans, Hpush'.
Qed.

(** What the handler appends for the assistant is the object with [role],
    [content] and [ts] only: [pushMsg] is called without its fourth
    argument, so the stored turn has no [sources]. *)
Lemma chat_stores_plain_assistant_turn (body : Body.t) (s s' : State) (resp : Response) :
  backend cfg = Memory ->
  chat cfg env body s = (Ok resp, s') ->
  code resp = 200%Z ->
  exists sid answer sources ts earlier,
    Body.sessionId body = Some sid /\
    reply resp = ChatReply answer sources /\
    mem s' !! key sid = Some (earlier ++ [stored "assistant" answer ts]) /\
    JSON.parse (stored "assistant" answer ts) = Some (JSON.message_obj "assistant" answer ts) /\
    JSON.prop "sources" (JSON.message_obj "assistant" answer ts) = None.
Proof.
  intros Hb Hrun Hcode.
  destruct (chat_200_inv body s s' resp Hrun Hcode)
    as (sid & msg & s1 & ps & a & s3 & Hsid & _ & _ & _ & _ & _ & _ & Hpush & ->).
  rewrite pushMsg_memory in Hpush by assumption. injection Hpush as <-.
  eexists sid, a, _, _, _. repeat split; try eassumption.
  - cbn [log appended set_mem mem]. apply lookup_insert_eq.
  - apply JSONFacts.parse_stringify_message.
Qed.

End ChatFacts.

(** *** The handler on sample requests *)

Lemma chat_rejects_missing_field_witness :
  chat (Sample.config Memory) Sample.answering
       {| Body.sessionId := Some "s1"; Body.message := None |} init
  = (Ok {| code := 400; reply := ErrorReply "sessionId & message required" None |}, init).
Proof.
  apply chat_rejects_missing_field. right. reflexivity.
Defined.

Lemma chat_answer_not_empty_witness :
  fst (chat (Sample.config Memory) Sample.answering Sample.request init)
    = Ok {| code := 200;
            reply := ChatReply "Rates were held [S1]."
                       (imap source_of [Sample.passage_a; Sample.passage_b]) |} /\
  "Rates were held [S1]." <> EmptyString.
Proof.
  destruct (chat_answer_not_empty (Sample.config Memory) Sample.answering Sample.request init
              (snd (chat (Sample.config Memory) Sample.answering Sample.request init))
              {| code := 200;
                 reply := ChatReply "Rates were held [S1]."
                            (imap source_of [Sample.passage_a; Sample.passage_b]) |})
    as (answer & sources & _ & _ & _ & _ & Hreply & Hne & _).
  - vm_compute. reflexivity.
  - reflexivity.
  - injection Hreply as <- <-. split; [vm_compute; reflexivity | exact Hne].
Defined.

Lemma chat_citations_consistent_witness :
  exists msg ps,
    qdrant_post Sample.answering msg 5 = inr ps /\
    imap source_of ps =
      [ {| Source.id := 1; Source.title := "Rates held"; Source.url := "https://news.example/a" |};
        {| Source.id := 2; Source.title := "Markets rally"; Source.url := "https://news.example/b" |} ].
Proof.
  destruct (chat_citations_consistent (Sample.config Memory) Sample.answering Sample.request init
              (snd (chat (Sample.config Memory) Sample.answering Sample.request init))
              "Rates were held [S1]."
              (imap source_of [Sample.passage_a; Sample.passage_b]))
    as (msg & ps & evs & _ & Hps & Hsrc & _).
  - vm_compute. reflexivity.
  - exists msg, ps. split; [exact Hps|]. rewrite <- Hsrc. reflexivity.
Defined.

Lemma chat_degrades_to_sources_witness :
  exists s' answer,
    chat (Sample.config Upstash) Sample.busy Sample.request init
      = (Ok {| code := 200;
               reply := ChatReply answer (imap source_of [Sample.passage_a; Sample.passage_b]) |}, s') /\
    contains answer "Rates held".
Proof.
  destruct (chat_degrades_to_sources (Sample.config Upstash) Sample.busy Sample.request
              "s1" "rates?" [Sample.passage_a; Sample.passage_b] init)
    as (s' & answer & lines & p0 & Hrun & _ & _ & _ & _ & _ & Hhead & Hin);
    try reflexivity; try discriminate.
  - right. intros k. reflexivity.
  - intros k q. eexists. reflexivity.
  - injection Hhead as <-. exists s', answer. split; [exact Hrun | exact Hin].
Defined.

(** C5 as stated fails when the fallback answer cannot be stored: the
    request below retrieves two passages, each of its three requests to
    Gemini fails with status 429, the append of the assistant turn fails, and
    the response is 500 [chat_failed], not 200 with the fallback. *)
Lemma chat_500_when_fallback_turn_not_stored :
  let cfg := Sample.config Upstash in
  let env := Sample.world (inl (Sample.http_error 429)) [2%nat] in
  let ps := [Sample.passage_a; Sample.passage_b] in
  let run := chat cfg env Sample.request init in
  qdrant_post env "rates?" (TOP_K cfg) = inr ps /\
  ps <> [] /\
  (forall k q, gemini_post env k q = inl (Sample.http_error 429)) /\
  requests (trace (snd run)) = replicate 3 (buildPrompt "rates?" ps) /\
  fst (pushMsg cfg env "s1" "user" "rates?" [] init) = Ok tt /\
  fst run = Ok {| code := 500; reply := ErrorReply "chat_failed" (Some "ECONNRESET") |}.
Proof.
  cbv zeta. split; [reflexivity|]. split; [discriminate|]. split; [reflexivity|].
  repeat split; vm_compute; reflexivity.
Qed.

(** C1 as stated fails: the request below reaches step 6 with an answer, the
    append of the assistant turn fails, and the response is 500, not 200. *)
Lemma chat_500_when_assistant_turn_not_stored :
  let cfg := Sample.config Upstash in
  let ps := [Sample.passage_a; Sample.passage_b] in
  let step2 := pushMsg cfg Sample.outage "s1" "user" "rates?" [] init in
  let step5 := chat_answer cfg Sample.outage "rates?" ps (snd step2) in
  let step6 := pushMsg cfg Sample.outage "s1" "assistant" "Rates were held [S1]." [] (snd step5) in
  fst step2 = Ok tt /\
  qdrant_post Sample.outage "rates?" (TOP_K cfg) = inr ps /\
  fst step5 = Ok "Rates were held [S1]." /\
  fst step6 = Throw (Error "ECONNRESET") /\
  fst (chat cfg Sample.outage Sample.request init)
    = Ok {| code := 500; reply := ErrorReply "chat_failed" (Some "ECONNRESET") |}.
Proof.
  cbv zeta. repeat split; vm_compute; reflexivity.
Qed.

Lemma chat_fails_when_assistant_turn_not_stored_witness :
  fst (chat (Sample.config Upstash) Sample.outage Sample.request init)
  = Ok {| code := 500; reply := ErrorReply "chat_failed" (Some "ECONNRESET") |}.
Proof.
  set (cfg := Sample.config Upstash).
  set (s1 := snd (pushMsg cfg Sample.outage "s1" "user" "rates?" [] init)).
  set (ps := [Sample.passage_a; Sample.passage_b]).
  set (s3 := snd (chat_answer cfg Sample.outage "rates?" ps s1)).
  set (s4 := snd (pushMsg cfg Sample.outage "s1" "assistant" "Rates were held [S1]." [] s3)).
  rewrite (chat_fails_when_assistant_turn_not_stored cfg Sample.outage Sample.request
             "s1" "rates?" "Rates were held [S1]." ps init s1 s3 s4 (Error "ECONNRESET")).
  - reflexivity.
  - reflexivity.
  - discriminate.
  - reflexivity.
  - discriminate.
  - vm_compute. reflexivity.
  - vm_compute. reflexivity.
  - vm_compute. reflexivity.
  - vm_compute. reflexivity.
Defined.

(** C2 on a sample request: the response carries two sources, and the
    assistant turn read back from the session has none. *)
Lemma chat_history_lacks_sources :
  let run := chat (Sample.config Memory) Sample.answering Sample.request init in
  let assistant := JSON.message_obj "assistant" "Rates were held [S1]." 1700000000001 in
  fst run = Ok {| code := 200;
                  reply := ChatReply "Rates were held [S1]."
                    [ {| Source.id := 1; Source.title := "Rates held"; Source.url := "https://news.example/a" |};
                      {| Source.id := 2; Source.title := "Markets rally"; Source.url := "https://news.example/b" |} ] |} /\
  fst (getHistory (Sample.config Memory) Sample.answering "s1" (snd run))
    = Ok [JSON.message_obj "user" "rates?" 1700000000000; assistant] /\
  JSON.prop "sources" assistant = None.
Proof.
  cbv zeta. repeat split; vm_compute; reflexivity.
Qed.

(** * Further properties of the store, the Gemini client and the routes *)

Section StoreOps.

Variable cfg : Config.
Variable env : Env.

Lemma issued_proj (s : State) :
  mem (issued cfg s) = mem s /\ trace (issued cfg s) = trace s /\
  ticks (issued cfg s) = ticks s /\ posts (issued cfg s) = posts s /\
  draws (issued cfg s) = draws s.
Proof. unfold issued. destruct (backend cfg); repeat split. Qed.

Lemma remote_reliable {A} (op : M A) (s : State) :
  (forall k, redis_fault env k = None) -> remote env op s = op (cmd s).
Proof. intros H. unfold remote. now rewrite H. Qed.

(** With a store that accepts every command, each method of [redis] is the
    in-process operation, recorded. *)
Lemma redis_reliable (s : State) :
  store_reliable cfg env ->
  (forall k v, rpush (redis cfg env) k v s
               = mem_rpush k v (issued cfg (log (ERedis "rpush" k) s))) /\
  (forall k a b, lrange (redis cfg env) k a b s
               = mem_lrange k a b (issued cfg (log (ERedis "lrange" k) s))) /\
  (forall k t, expire (redis cfg env) k t s
               = (Ok true, issued cfg (log (ERedis "expire" k) s))) /\
  (forall k, del (redis cfg env) k s
               = mem_del k (issued cfg (log (ERedis "del" k) s))).
Proof.
  intros Hrel. unfold store_reliable in Hrel. unfold redis, issued.
  destruct (backend cfg); cbn [rpush lrange expire del remote_redis memory_redis];
    unfold call, bind, emit;
    try (destruct Hrel as [?|Hrel]; [discriminate|]);
    repeat split; intros; rewrite ?remote_reliable by assumption; reflexivity.
Qed.

Lemma pushMsg_pushed (sid role content : string) (extra : list (string * JSON.value)) (s : State) :
  store_reliable cfg env ->
  pushMsg cfg env sid role content extra s = (Ok tt, pushed cfg env sid role content extra s).
Proof.
  intros Hrel. unfold pushMsg, bind, now, pushed.
  destruct (redis_reliable (tick s) Hrel) as (Hpush & _).
  rewrite Hpush. unfold mem_rpush, with_mem. cbn [fst snd].
  match goal with |- context [expire _ _ _ ?s1] =>
    destruct (redis_reliable s1 Hrel) as (_ & _ & Hexp & _) end.
  rewrite Hexp. reflexivity.
Qed.

Lemma pushed_proj (sid role content : string) (extra : list (string * JSON.value)) (s : State) :
  let s' := pushed cfg env sid role content extra s in
  mem s' = <[key sid := session_log sid s
                         ++ [stored_with role content (Date_now env (ticks s)) extra]]> (mem s) /\
  trace s' = trace s ++ [ERedis "rpush" (key sid); ERedis "expire" (key sid)] /\
  ticks s' = S (ticks s) /\ posts s' = posts s /\ draws s' = draws s.
Proof.
  unfold pushed, session_log, issued.
  destruct (backend cfg); cbn; rewrite <- app_assoc; repeat split.
Qed.

Lemma slice_range {A} (l : list A) (a b : Z) :
  (0 <= a)%Z -> (0 <= b)%Z ->
  slice l a b = take (Z.to_nat (b - a)) (drop (Z.to_nat a) l).
Proof.
  intros Ha Hb. unfold slice.
  destruct (Z.ltb_spec a 0); [lia|]. destruct (Z.ltb_spec b 0); [lia|].
  destruct (Z.le_gt_cases (Z.of_nat (length l)) a) as [Hout|Hin].
  - rewrite (Z.min_r a) by lia. rewrite Nat2Z.id.
    rewrite !drop_ge by lia. now rewrite !take_nil.
  - rewrite (Z.min_l a) by lia.
    destruct (Z.le_gt_cases b (Z.of_nat (length l))).
    + now rewrite (Z.min_l b) by lia.
    + rewrite (Z.min_r b) by lia.
      rewrite !take_ge; [reflexivity | rewrite length_drop; lia | rewrite length_drop; lia].
Qed.

(** X1. Two sessions have the same store key only if they are the same
    session. *)
Theorem session_key_inj (a b : string) : key a = key b <-> a = b.
Proof.
  split; [apply key_inj | now intros ->].
Qed.

(** X2. In process, [rpush] creates the list when the key is absent, puts the
    value last, returns the new length, and [lrange(k, 0, -1)] then reads the
    whole list back; no other key changes. *)
Theorem rpush_then_lrange (k v : string) (s : State) :
  backend cfg = Memory ->
  exists s1 s2,
    rpush (redis cfg env) k v s
      = (Ok (Z.of_nat (length (default [] (mem s !! k)) + 1)), s1) /\
    lrange (redis cfg env) k 0 (-1) s1 = (Ok (default [] (mem s !! k) ++ [v]), s2) /\
    mem s2 = mem s1 /\
    (forall k', k' <> k -> mem s1 !! k' = mem s !! k').
Proof.
  intros Hb. unfold redis. rewrite Hb.
  cbn [rpush lrange memory_redis]. unfold call, bind, emit, mem_rpush, mem_lrange, with_mem.
  cbn [mem log set_mem].
  eexists _, _. split; [|split; [|split]].
  - rewrite length_app. cbn [length]. reflexivity.
  - cbn [mem log set_mem]. rewrite lookup_insert_eq. cbn [from_option Datatypes.id].
    change (-1 =? -1)%Z with true. cbv iota. now rewrite slice_all.
  - reflexivity.
  - intros k' Hk. cbn [mem set_mem log]. now apply lookup_insert_ne.
Qed.

(** X3. In process, [lrange(k, a, b)] with [a >= 0] never changes the store
    and follows the inclusive convention of Redis: with [b = -1] it returns
    the list from position [a] on, with [b >= 0] the entries at the positions
    [a] to [b]; a missing key reads as the empty list. *)
Theorem lrange_positions (k : string) (a b : Z) (s : State) :
  backend cfg = Memory ->
  (0 <= a)%Z -> (-1 <= b)%Z ->
  let arr := default [] (mem s !! k) in
  let run := lrange (redis cfg env) k a b s in
  fst run = Ok (if (b =? -1)%Z then drop (Z.to_nat a) arr
                else take (Z.to_nat (b + 1 - a)) (drop (Z.to_nat a) arr)) /\
  mem (snd run) = mem s.
Proof.
  intros Hb Ha Hb' arr run. subst run. unfold redis. rewrite Hb.
  cbn [lrange memory_redis]. unfold call, bind, emit, mem_lrange, with_mem.
  cbn [mem log set_mem fst snd]. split; [|reflexivity]. f_equal. fold arr.
  destruct (Z.eqb_spec b (-1)).
  - rewrite slice_range by lia.
    rewrite take_ge; [reflexivity|]. rewrite length_drop. lia.
  - apply slice_range; lia.
Qed.

End StoreOps.

Lemma rpush_then_lrange_witness :
  exists s1 s2,
    rpush (redis (Sample.config Memory) Sample.busy) "k" "b" (appended "k" "a" init)
      = (Ok 2%Z, s1) /\
    lrange (redis (Sample.config Memory) Sample.busy) "k" 0 (-1) s1 = (Ok ["a"; "b"], s2).
Proof.
  destruct (rpush_then_lrange (Sample.config Memory) Sample.busy "k" "b" (appended "k" "a" init))
    as (s1 & s2 & H1 & H2 & _); [reflexivity|].
  exists s1, s2. split; [exact H1 | exact H2].
Defined.

Lemma lrange_positions_witness :
  fst (lrange (redis (Sample.config Memory) Sample.busy) "k" 1 1
         (appended "k" "c" (appended "k" "b" (appended "k" "a" init))))
  = Ok ["b"].
Proof.
  apply (lrange_positions (Sample.config Memory) Sample.busy "k" 1 1
           (appended "k" "c" (appended "k" "b" (appended "k" "a" init))));
    [reflexivity | lia | lia].
Defined.


(** ** Sessions: appending, reading, resetting *)

Section SessionFacts.

Variable cfg : Config.
Variable env : Env.

Lemma added_app (s s' : State) (evs : list Event) :
  trace s' = trace s ++ evs -> added s s' = evs.
Proof. intros H. unfold added. rewrite H. apply drop_app_length. Qed.

Lemma session_log_other (sid other : string) (v : list string) (m : gmap string (list string)) :
  other <> sid -> <[key sid := v]> m !! key other = m !! key other.
Proof. intros Hne. apply lookup_insert_ne. intros H. apply key_inj in H. congruence. Qed.

(** X4. When the store accepts its commands, [pushMsg] appends exactly one
    entry, the serialised message stamped with the current clock reading, at
    the end of the log of its session (creating the log when there is none),
    leaves every other session as it was, and calls [rpush] then [expire] on
    the key of the session. *)
Theorem pushMsg_appends_one
    (sid role content : string) (extra : list (string * JSON.value)) (s : State) :
  store_reliable cfg env ->
  exists s',
    pushMsg cfg env sid role content extra s = (Ok tt, s') /\
    session_log sid s'
      = session_log sid s ++ [stored_with role content (Date_now env (ticks s)) extra] /\
    (forall other, other <> sid -> session_log other s' = session_log other s) /\
    store_calls (added s s') = [("rpush", key sid); ("expire", key sid)].
Proof.
  intros Hrel. exists (pushed cfg env sid role content extra s).
  split; [now apply pushMsg_pushed|].
  destruct (pushed_proj cfg env sid role content extra s) as (Hmem & Htr & _).
  repeat split.
  - unfold session_log at 1. rewrite Hmem, lookup_insert_eq. reflexivity.
  - intros other Hne. unfold session_log. rewrite Hmem.
    now rewrite session_log_other.
  - now rewrite (added_app _ _ _ Htr).
Qed.

Lemma parse_all_state (arr : list string) (s : State) : snd (parse_all arr s) = s.
Proof.
  induction arr as [|x arr IH]; [reflexivity|].
  cbn [parse_all]. destruct (JSON.parse x); [|reflexivity].
  unfold bind. specialize IH. destruct (parse_all arr s) as [[vs|e|] s1]; cbn in *; congruence.
Qed.

Lemma bind_mem {A B} (m : M A) (k : A -> M B) (s : State) :
  mem (snd (m s)) = mem s ->
  (forall a s1, mem (snd (k a s1)) = mem s1) ->
  mem (snd (bind m k s)) = mem s.
Proof.
  intros Hm Hk. unfold bind. destruct (m s) as [[a|e|] s1]; cbn [snd] in *; [|assumption..].
  now rewrite Hk.
Qed.

Lemma getHistory_mem (sid : string) (s : State) :
  mem (snd (getHistory cfg env sid s)) = mem s.
Proof.
  unfold getHistory. apply bind_mem.
  - unfold redis. destruct (backend cfg); cbn [lrange remote_redis memory_redis];
      unfold call, bind, emit, remote, mem_lrange, with_mem; cbn [cmds log];
      try destruct (redis_fault env (cmds s)); reflexivity.
  - intros arr s1. now rewrite parse_all_state.
Qed.

(** X5. [getHistory] only reads: with any of the three stores, and whether
    it returns or throws, the logs are the same afterwards. *)
Theorem getHistory_reads_only (sid : string) (s : State) :
  mem (snd (getHistory cfg env sid s)) = mem s /\
  forall other, session_log other (snd (getHistory cfg env sid s)) = session_log other s.
Proof.
  split; [apply getHistory_mem|].
  intros other. unfold session_log. now rewrite getHistory_mem.
Qed.

Lemma getHistory_absent (sid : string) (s : State) :
  store_reliable cfg env ->
  mem s !! key sid = None ->
  fst (getHistory cfg env sid s) = Ok [].
Proof.
  intros Hrel Hnone. unfold getHistory, bind.
  destruct (redis_reliable cfg env s Hrel) as (_ & Hrange & _).
  rewrite Hrange. unfold mem_lrange, with_mem.
  destruct (issued_proj cfg (log (ERedis "lrange" (key sid)) s)) as (-> & _).
  cbn [mem log]. rewrite Hnone. reflexivity.
Qed.

(** X6. A session that has no log (never written, or deleted) reads as the
    empty history, not as an error, when the store answers. *)
Theorem getHistory_of_absent_session (sid : string) (s : State) :
  store_reliable cfg env ->
  mem s !! key sid = None ->
  fst (getHistory cfg env sid s) = Ok [] /\
  fst (history cfg env sid s) = Ok {| code := 200; reply := HistoryReply [] |}.
Proof.
  intros Hrel Hnone.
  pose proof (getHistory_absent sid s Hrel Hnone) as Hget.
  split; [exact Hget|].
  unfold history, try_catch, bind.
  destruct (getHistory cfg env sid s) as [r s1]. cbn [fst] in Hget. now rewrite Hget.
Qed.

(** X7. When the store accepts the command, the reset route answers 200
    [{ok: true}], the history of the session is empty afterwards, the other
    sessions keep their logs, and a second reset answers 200 again and
    changes nothing. *)
Theorem reset_empties_one_session (sid : string) (s : State) :
  store_reliable cfg env ->
  let s1 := snd (reset cfg env sid s) in
  let s2 := snd (reset cfg env sid s1) in
  fst (reset cfg env sid s) = Ok {| code := 200; reply := OkReply |} /\
  fst (getHistory cfg env sid s1) = Ok [] /\
  (forall other, other <> sid -> session_log other s1 = session_log other s) /\
  fst (reset cfg env sid s1) = Ok {| code := 200; reply := OkReply |} /\
  mem s2 = mem s1.
Proof.
  intros Hrel.
  assert (Hreset : forall t,
    reset cfg env sid t
    = (Ok {| code := 200; reply := OkReply |},
       set_mem (delete (key sid) (mem t)) (issued cfg (log (ERedis "del" (key sid)) t)))).
  { intros t. unfold reset, try_catch, resetSession, bind.
    destruct (redis_reliable cfg env t Hrel) as (_ & _ & _ & Hdel).
    rewrite Hdel. unfold mem_del, with_mem.
    destruct (issued_proj cfg (log (ERedis "del" (key sid)) t)) as (-> & _).
    reflexivity. }
  cbv zeta. rewrite !Hreset. cbn [fst snd mem set_mem].
  repeat split.
  - apply getHistory_absent; [assumption|].
    cbn [mem set_mem]. apply lookup_delete_eq.
  - intros other Hne. unfold session_log. cbn [mem set_mem log].
    rewrite lookup_delete_ne; [reflexivity|]. intros H. apply key_inj in H. congruence.
  - apply delete_delete_eq.
Qed.

End SessionFacts.

Lemma pushMsg_appends_one_witness :
  exists s',
    pushMsg (Sample.config IORedis) Sample.busy "s1" "user" "hi" [] init = (Ok tt, s') /\
    length (session_log "s1" s') = 1%nat.
Proof.
  destruct (pushMsg_appends_one (Sample.config IORedis) Sample.busy "s1" "user" "hi" [] init)
    as (s' & Hrun & Hlog & _).
  - right. intros k. reflexivity.
  - exists s'. split; [exact Hrun|]. rewrite Hlog. reflexivity.
Defined.

Lemma getHistory_of_absent_session_witness :
  fst (history (Sample.config Memory) Sample.busy "nobody" init)
  = Ok {| code := 200; reply := HistoryReply [] |}.
Proof.
  apply (getHistory_of_absent_session (Sample.config Memory) Sample.busy "nobody" init);
    [left; reflexivity | reflexivity].
Defined.

Lemma reset_empties_one_session_witness :
  fst (getHistory (Sample.config Memory) Sample.busy "s1"
         (snd (reset (Sample.config Memory) Sample.busy "s1" (appended (key "s1") "x" init))))
  = Ok [].
Proof.
  apply (reset_empties_one_session (Sample.config Memory) Sample.busy "s1"
           (appended (key "s1") "x" init)).
  left. reflexivity.
Defined.

(** ** The history and reset routes *)

Section HistoryFacts.

Variable cfg : Config.
Variable env : Env.

Lemma parse_all_safe (arr : list string) : safe is_store_call (parse_all arr).
Proof.
  induction arr as [|x arr IH]; cbn [parse_all]; [apply safe_ret|].
  destruct (JSON.parse x); [|apply safe_throw].
  apply safe_bind; [exact IH | intros vs; apply safe_ret].
Qed.

Lemma getHistory_safe (sid : string) : safe is_store_call (getHistory cfg env sid).
Proof.
  destruct (safe_redis cfg env is_store_call) as (_ & Hrange & _); [intros; exact I|].
  unfold getHistory. apply safe_bind; [apply Hrange | intros arr; apply parse_all_safe].
Qed.

Lemma getHistory_reliable (sid : string) (s : State) :
  store_reliable cfg env ->
  getHistory cfg env sid s
  = parse_all (session_log sid s) (issued cfg (log (ERedis "lrange" (key sid)) s)).
Proof.
  intros Hrel. unfold getHistory, bind.
  destruct (redis_reliable cfg env s Hrel) as (_ & Hrange & _).
  rewrite Hrange. unfold mem_lrange, with_mem, session_log.
  destruct (issued_proj cfg (log (ERedis "lrange" (key sid)) s)) as (Hmem & _).
  rewrite Hmem. cbn [mem log]. change (-1 =? -1)%Z with true. cbv iota.
  rewrite slice_all.
  replace (set_mem (mem s) (issued cfg (log (ERedis "lrange" (key sid)) s)))
    with (issued cfg (log (ERedis "lrange" (key sid)) s)); [reflexivity|].
  unfold issued. destruct (backend cfg), s; reflexivity.
Qed.

Lemma parse_all_throws (arr : list string) (x : string) (s : State) :
  x ∈ arr -> JSON.parse x = None ->
  exists e, parse_all arr s = (Throw e, s).
Proof.
  intros Hin Hx. induction arr as [|y arr IH]; [inversion Hin|].
  cbn [parse_all]. destruct (JSON.parse y) eqn:Hy.
  - apply elem_of_cons in Hin as [->|Hin]; [congruence|].
    destruct (IH Hin) as (e & He). exists e. unfold bind. now rewrite He.
  - eexists. reflexivity.
Qed.

(** X8. The history route always answers and never changes the store: 200
    with the parsed log when [getHistory] returns, 500 [history_failed]
    (logged) when it throws. *)
Theorem history_answers (sid : string) (s : State) :
  exists resp s',
    history cfg env sid s = (Ok resp, s') /\
    mem s' = mem s /\
    match getHistory cfg env sid s with
    | (Ok msgs, s1) => resp = {| code := 200; reply := HistoryReply msgs |} /\ s' = s1
    | (Throw e, s1) =>
        resp = {| code := 500; reply := ErrorReply "history_failed" None |} /\
        s' = log (EError "history_failed:" (log_arg e)) s1
    | (Diverge, _) => False
    end.
Proof.
  pose proof (getHistory_mem cfg env sid s) as Hmem.
  destruct (getHistory_safe sid s) as (r & s1 & Hrun & Hr & _).
  unfold history, try_catch, bind. rewrite Hrun in *. cbn [snd] in Hmem.
  destruct r as [msgs|e|]; [| |congruence].
  - eexists _, _. split; [reflexivity|]. split; [exact Hmem|]. split; reflexivity.
  - eexists _, _. split; [reflexivity|]. split; [exact Hmem|]. split; reflexivity.
Qed.

Lemma parse_not_json_start (x : string) : not_json_start x -> JSON.parse x = None.
Proof.
  unfold not_json_start, JSON.parse.
  replace (2 * String.length x + 2)%nat with (S (2 * String.length x + 1)) by lia.
  cbn [JSON.parse_value].
  destruct (JSON.skip_ws x) as [|c r]; [reflexivity|].
  intros H. destruct c as [[] [] [] [] [] [] [] []];
    vm_compute in H; try discriminate H; reflexivity.
Qed.

(** X9. One stored entry that does not begin like a JSON text (it is empty
    or blank, or its first character after white space begins no JSON value,
    as in plain text) fails the whole history: the route answers 500
    [history_failed] although the store answered. *)
Theorem history_fails_on_unparsable_entry (sid x : string) (s : State) :
  store_reliable cfg env ->
  x ∈ session_log sid s ->
  not_json_start x ->
  fst (history cfg env sid s) = Ok {| code := 500; reply := ErrorReply "history_failed" None |}.
Proof.
  intros Hrel Hin Hx. unfold history, try_catch, bind.
  rewrite getHistory_reliable by assumption.
  destruct (parse_all_throws _ x (issued cfg (log (ERedis "lrange" (key sid)) s)) Hin
              (parse_not_json_start x Hx))
    as (e & ->).
  reflexivity.
Qed.

(** X10. When a remote store refuses the command, the history route answers
    500 [history_failed], the reset route answers 500 [reset_failed], and no
    log is changed or deleted. *)
Theorem routes_on_store_outage (sid : string) (s : State) (e : exn) :
  backend cfg <> Memory ->
  redis_fault env (cmds s) = Some e ->
  fst (history cfg env sid s) = Ok {| code := 500; reply := ErrorReply "history_failed" None |} /\
  fst (reset cfg env sid s) = Ok {| code := 500; reply := ErrorReply "reset_failed" None |} /\
  mem (snd (history cfg env sid s)) = mem s /\
  mem (snd (reset cfg env sid s)) = mem s.
Proof.
  intros Hb Hfault.
  unfold history, reset, try_catch, getHistory, resetSession, bind, redis.
  destruct (backend cfg); [| |congruence];
    cbn [lrange del remote_redis]; unfold call, bind, emit, remote; cbn [cmds log];
    rewrite Hfault; repeat split.
Qed.

End HistoryFacts.

Lemma history_fails_on_unparsable_entry_witness :
  fst (history (Sample.config Memory) Sample.busy "s1" (appended (key "s1") " oops" init))
  = Ok {| code := 500; reply := ErrorReply "history_failed" None |}.
Proof.
  apply (history_fails_on_unparsable_entry (Sample.config Memory) Sample.busy "s1" " oops").
  - left. reflexivity.
  - vm_compute. left.
  - vm_compute. reflexivity.
Defined.

Lemma routes_on_store_outage_witness :
  fst (reset (Sample.config Upstash) (Sample.world (inl (Sample.http_error 429)) [0%nat]) "s1" init)
  = Ok {| code := 500; reply := ErrorReply "reset_failed" None |}.
Proof.
  apply (routes_on_store_outage (Sample.config Upstash)
           (Sample.world (inl (Sample.http_error 429)) [0%nat]) "s1" init (Error "ECONNRESET")).
  - discriminate.
  - reflexivity.
Defined.

(** ** The Gemini client, whatever Gemini answers *)

Section GeminiMore.

Variable cfg : Config.
Variable env : Env.

Lemma backoff_step (n : nat) (p : string) (d : Z) (k : nat) :
  backoff env (S (S n)) p d k
  = EPost p :: ESleep (d + jitter (Math_random env k)) :: backoff env (S n) p (d * 2) (S k).
Proof. reflexivity. Qed.

Lemma askGemini_loop_succeeds (k fuel : nat) (p : string) (i d : Z) (s : State)
    (text : option string) :
  (i + Z.of_nat k < LLM_RETRIES cfg)%Z ->
  (k < fuel)%nat ->
  (forall j, (j < k)%nat ->
     exists e, gemini_post env (posts s + j) p = inl e /\ retryable e = true) ->
  gemini_post env (posts s + k) p = inr text ->
  exists s',
    askGemini_loop cfg env fuel p i d s = (Ok (Return (default EmptyString text)), s') /\
    trace s' = trace s ++ backoff env (S k) p d (draws s).
Proof.
  revert fuel i d s. induction k as [|k IH]; intros fuel i d s Hi Hfuel Hfail Hok;
    (destruct fuel as [|fuel]; [lia|]); rewrite askGemini_loop_step;
    (destruct (Z.ltb_spec i (LLM_RETRIES cfg)); [|lia]).
  - rewrite Nat.add_0_r in Hok. rewrite Hok. eexists. split; reflexivity.
  - destruct (Hfail 0%nat ltac:(lia)) as (e & He & Hre).
    rewrite Nat.add_0_r in He. rewrite He, Hre.
    destruct (Z.ltb_spec i (LLM_RETRIES cfg - 1)); [|lia].
    destruct (IH fuel (i + 1)%Z (d * 2)%Z (slept env d (posted p s))) as (s' & Hrun & Htr).
    + lia.
    + lia.
    + intros j Hj. destruct (Hfail (S j) ltac:(lia)) as (e' & He' & Hre').
      exists e'. split; [|exact Hre'].
      cbn [slept posted log post draw posts]. rewrite <- He'. f_equal. lia.
    + cbn [slept posted log post draw posts]. rewrite <- Hok. f_equal. lia.
    + exists s'. split; [exact Hrun|]. rewrite Htr, backoff_step.
      cbn [slept posted log post draw trace draws]. now rewrite <- !app_assoc.
Qed.

(** X11. If the first [k] requests fail with a retryable error, [k] is below
    [LLM_RETRIES] and the next request succeeds, [askGemini] returns the text
    of that reply (the empty string when the reply has none) after exactly
    [k + 1] requests and [k] backoff waits. *)
Theorem askGemini_succeeds_after_retries (k : nat) (p : string) (s : State)
    (text : option string) :
  (Z.of_nat k < LLM_RETRIES cfg)%Z ->
  (forall j, (j < k)%nat ->
     exists e, gemini_post env (posts s + j) p = inl e /\ retryable e = true) ->
  gemini_post env (posts s + k) p = inr text ->
  exists s' new,
    askGemini cfg env p s = (Ok (default EmptyString text), s') /\
    trace s' = trace s ++ new /\
    new = backoff env (S k) p (LLM_RETRY_MS cfg) (draws s) /\
    attempts new = S k /\
    length (waits new) = k.
Proof.
  intros Hk Hfail Hok.
  destruct (askGemini_loop_succeeds k (Z.to_nat (LLM_RETRIES cfg)) p 0 (LLM_RETRY_MS cfg) s text)
    as (s' & Hrun & Htr); try assumption; try lia.
  exists s', (backoff env (S k) p (LLM_RETRY_MS cfg) (draws s)).
  unfold askGemini, bind. rewrite Hrun. repeat split; try assumption.
  - unfold attempts. now rewrite requests_backoff, length_replicate.
  - rewrite waits_backoff, length_map, length_seq. reflexivity.
Qed.

Lemma askGemini_loop_shape (fuel : nat) (p : string) (i d : Z) (s : State) :
  (Z.to_nat (LLM_RETRIES cfg - i) <= fuel)%nat ->
  exists n,
    trace (snd (askGemini_loop cfg env fuel p i d s)) = trace s ++ backoff env n p d (draws s) /\
    (Z.of_nat n <= Z.max 0 (LLM_RETRIES cfg - i))%Z /\
    ((i < LLM_RETRIES cfg)%Z -> (1 <= n)%nat).
Proof.
  revert i d s. induction fuel as [|fuel IH]; intros i d s Hfuel.
  - rewrite askGemini_loop_exit by lia. exists 0%nat.
    cbn [snd backoff]. rewrite app_nil_r. repeat split; lia.
  - rewrite askGemini_loop_step.
    destruct (Z.ltb_spec i (LLM_RETRIES cfg));
      [|exists 0%nat; cbn [snd backoff]; rewrite app_nil_r; repeat split; lia].
    assert (Hone : exists n,
      trace (posted p s) = trace s ++ backoff env n p d (draws s) /\
      (Z.of_nat n <= Z.max 0 (LLM_RETRIES cfg - i))%Z /\
      ((i < LLM_RETRIES cfg)%Z -> (1 <= n)%nat))
      by (exists 1%nat; repeat split; lia).
    destruct (gemini_post env (posts s) p) as [err|text]; [|exact Hone].
    destruct (retryable err); [|exact Hone].
    destruct (Z.ltb_spec i (LLM_RETRIES cfg - 1)); [|exact Hone].
    destruct (IH (i + 1)%Z (d * 2)%Z (slept env d (posted p s)) ltac:(lia))
      as (n & Htr & Hn & Hpos).
    destruct n as [|n]; [specialize (Hpos ltac:(lia)); lia|].
    exists (S (S n)). rewrite Htr, backoff_step.
    cbn [slept posted log post draw trace draws]. rewrite <- !app_assoc.
    repeat split; lia.
Qed.

(** X12. Whatever Gemini answers, one call of [askGemini] sends at most
    [LLM_RETRIES] requests (none when [LLM_RETRIES <= 0], at least one
    otherwise), all for the prompt it was given, with exactly one backoff
    wait between two consecutive requests and nothing else. *)
Theorem askGemini_request_budget (p : string) (s : State) :
  exists n new,
    trace (snd (askGemini cfg env p s)) = trace s ++ new /\
    new = backoff env n p (LLM_RETRY_MS cfg) (draws s) /\
    attempts new = n /\
    (Z.of_nat n <= Z.max 0 (LLM_RETRIES cfg))%Z /\
    ((1 <= LLM_RETRIES cfg)%Z -> (1 <= n)%nat) /\
    requests new = replicate n p /\
    length (waits new) = pred n.
Proof.
  destruct (askGemini_loop_shape (Z.to_nat (LLM_RETRIES cfg)) p 0 (LLM_RETRY_MS cfg) s)
    as (n & Htr & Hn & Hpos); [lia|].
  exists n, (backoff env n p (LLM_RETRY_MS cfg) (draws s)).
  repeat split.
  - unfold askGemini, bind.
    destruct (askGemini_loop cfg env _ p 0 (LLM_RETRY_MS cfg) s) as [[[t|]|e|] s'];
      exact Htr.
  - unfold attempts. now rewrite requests_backoff, length_replicate.
  - lia.
  - intros H. apply Hpos. lia.
  - apply requests_backoff.
  - rewrite waits_backoff, length_map, length_seq. reflexivity.
Qed.

(** X13. With [LLM_RETRIES <= 0] the loop body never runs: [askGemini] sends
    no request and throws [Error('llm_unavailable')], the state untouched. *)
Theorem askGemini_without_attempts (p : string) (s : State) :
  (LLM_RETRIES cfg <= 0)%Z ->
  askGemini cfg env p s = (Throw (Error "llm_unavailable"), s).
Proof.
  intros Hn. unfold askGemini, bind.
  now rewrite askGemini_loop_exit by lia.
Qed.

End GeminiMore.

Lemma askGemini_succeeds_after_retries_witness :
  exists s',
    askGemini (Sample.config Memory)
      {| Date_now := fun _ => 0%Z; Math_random := fun _ => 0%Q;
         gemini_post := fun k _ => if (k <? 2)%nat then inl (Sample.http_error 503)
                                   else inr (Some "ok");
         qdrant_post := fun _ _ => inr []; redis_fault := fun _ => None |}
      "q" init = (Ok "ok", s') /\
    trace s' = [EPost "q"; ESleep 800; EPost "q"; ESleep 1600; EPost "q"].
Proof.
  destruct (askGemini_succeeds_after_retries (Sample.config Memory)
      {| Date_now := fun _ => 0%Z; Math_random := fun _ => 0%Q;
         gemini_post := fun k _ => if (k <? 2)%nat then inl (Sample.http_error 503)
                                   else inr (Some "ok");
         qdrant_post := fun _ _ => inr []; redis_fault := fun _ => None |}
      2 "q" init (Some "ok")) as (s' & new & Hrun & Htr & -> & _).
  - cbn. lia.
  - intros j Hj. exists (Sample.http_error 503).
    destruct j as [|[|j]]; [split; reflexivity | split; reflexivity | lia].
  - reflexivity.
  - exists s'. split; [exact Hrun | exact Htr].
Defined.

Lemma askGemini_without_attempts_witness :
  askGemini {| TOP_K := 5; LLM_RETRIES := 0; LLM_RETRY_MS := 800;
               qdrant_configured := true; backend := Memory |} Sample.answering "q" init
  = (Throw (Error "llm_unavailable"), init).
Proof.
  apply askGemini_without_attempts. cbn. lia.
Defined.

(** ** The chat route, turn by turn *)

Section ChatMore.

Variable cfg : Config.
Variable env : Env.

Lemma askGemini_loop_frame (fuel : nat) (p : string) (i d : Z) (s : State) :
  let s' := snd (askGemini_loop cfg env fuel p i d s) in
  mem s' = mem s /\ ticks s' = ticks s /\ cmds s' = cmds s.
Proof.
  revert i d s. induction fuel as [|fuel IH]; intros i d s.
  - cbn [askGemini_loop]. destruct (i <? LLM_RETRIES cfg)%Z; repeat split.
  - cbv zeta. rewrite askGemini_loop_step.
    destruct (i <? LLM_RETRIES cfg)%Z; [|repeat split].
    destruct (gemini_post env (posts s) p) as [err|text]; [|repeat split].
    destruct (retryable err); [|repeat split].
    destruct (i <? LLM_RETRIES cfg - 1)%Z; [|repeat split].
    apply (IH (i + 1)%Z (d * 2)%Z (slept env d (posted p s))).
Qed.

Lemma chat_answer_frame (msg : string) (ps : list Passage.t) (s : State) :
  let s' := snd (chat_answer cfg env msg ps s) in
  mem s' = mem s /\ ticks s' = ticks s /\ cmds s' = cmds s.
Proof.
  cbv zeta. unfold chat_answer, try_catch, bind, askGemini, bind.
  pose proof (askGemini_loop_frame (Z.to_nat (LLM_RETRIES cfg)) (buildPrompt msg ps) 0
                (LLM_RETRY_MS cfg) s) as H.
  cbv zeta in H.
  destruct (askGemini_loop cfg env _ (buildPrompt msg ps) 0 (LLM_RETRY_MS cfg) s)
    as [[[t|]|e|] s1]; exact H.
Qed.

Lemma is_falsy_iff (v : option string) : is_falsy v = true <-> missing_or_empty v.
Proof.
  unfold is_falsy, missing_or_empty. destruct v as [x|].
  - destruct (String.eqb_spec x EmptyString); split; intros H; auto; try discriminate.
    + subst. auto.
    + destruct H as [H|H]; congruence.
  - split; auto.
Qed.

Lemma chat_valid (body : Body.t) (sid msg : string) (s : State) :
  Body.sessionId body = Some sid -> sid <> EmptyString ->
  Body.message body = Some msg -> msg <> EmptyString ->
  chat cfg env body s =
  try_catch (chat_pipeline cfg env sid msg)
    (fun e =>
       let* _ := console_error "chat_failed:" (log_arg e) in
       ret {| code := 500; reply := ErrorReply "chat_failed" (Some (message e)) |}) s.
Proof.
  intros Hsid Hsid' Hmsg Hmsg'. unfold chat, try_catch.
  rewrite Hsid, Hmsg. cbn [is_falsy default from_option Datatypes.id].
  destruct (String.eqb_spec sid EmptyString); [contradiction|].
  destruct (String.eqb_spec msg EmptyString); [contradiction|].
  reflexivity.
Qed.

Lemma chat_log_after_200 (body : Body.t) (s s' : State) (resp : Response) :
  store_reliable cfg env ->
  chat cfg env body s = (Ok resp, s') ->
  code resp = 200%Z ->
  exists sid msg answer sources,
    Body.sessionId body = Some sid /\ Body.message body = Some msg /\
    reply resp = ChatReply answer sources /\
    session_log sid s'
      = session_log sid s
        ++ [stored "user" msg (Date_now env (ticks s));
            stored "assistant" answer (Date_now env (S (ticks s)))] /\
    (forall other, other <> sid -> session_log other s' = session_log other s).
Proof.
  intros Hrel Hrun Hcode.
  destruct (chat_200_inv cfg env body s s' resp Hrun Hcode)
    as (sid & msg & s1 & ps & a & s3 & Hsid & Hmsg & _ & _ & Hpush & _ & Hans & Hpush' & ->).
  rewrite pushMsg_pushed in Hpush, Hpush' by assumption.
  injection Hpush as <-. injection Hpush' as <-.
  pose proof (chat_answer_frame msg ps (pushed cfg env sid "user" msg [] s)) as Hframe.
  rewrite Hans in Hframe. cbv zeta in Hframe. cbn [snd] in Hframe.
  destruct Hframe as (Hm3 & Ht3 & _).
  destruct (pushed_proj cfg env sid "user" msg [] s) as (Hm1 & _ & Ht1 & _).
  destruct (pushed_proj cfg env sid "assistant" a [] s3) as (Hm4 & _).
  exists sid, msg, a, (imap source_of ps). repeat split; try assumption.
  - unfold session_log at 1. rewrite Hm4, lookup_insert_eq.
    unfold session_log at 1. rewrite Hm3, Hm1, lookup_insert_eq, Ht3, Ht1.
    cbn [from_option Datatypes.id]. rewrite <- app_assoc. reflexivity.
  - intros other Hne. unfold session_log.
    rewrite Hm4, session_log_other, Hm3, Hm1, session_log_other by assumption.
    reflexivity.
Qed.

(** X14. When the store accepts its commands, a chat request answered 200
    has appended exactly two entries to the log of its session, the user
    turn with the message and then the assistant turn with the answer of the
    response, stamped with two consecutive clock readings; no other session
    has changed. *)
Theorem chat_appends_two_turns (body : Body.t) (s s' : State) (resp : Response) :
  store_reliable cfg env ->
  chat cfg env body s = (Ok resp, s') ->
  code resp = 200%Z ->
  exists sid msg answer sources,
    Body.sessionId body = Some sid /\ Body.message body = Some msg /\
    reply resp = ChatReply answer sources /\
    session_log sid s'
      = session_log sid s
        ++ [stored "user" msg (Date_now env (ticks s));
            stored "assistant" answer (Date_now env (S (ticks s)))] /\
    (forall other, other <> sid -> session_log other s' = session_log other s).
Proof.
  apply chat_log_after_200.
Qed.


(** X16. When retrieval fails (Qdrant is not configured, or the embedding or
    the search throws), a valid request is answered 500 [chat_failed] with
    the message of the error as detail; the user turn has already been
    stored, no assistant turn follows it, and Gemini is not contacted. *)
Theorem chat_fails_without_retrieval (body : Body.t) (sid msg : string) (s : State) :
  Body.sessionId body = Some sid -> sid <> EmptyString ->
  Body.message body = Some msg -> msg <> EmptyString ->
  store_reliable cfg env ->
  qdrant_configured cfg = false \/ (exists e, qdrant_post env msg (TOP_K cfg) = inl e) ->
  exists e s',
    chat cfg env body s
      = (Ok {| code := 500; reply := ErrorReply "chat_failed" (Some (message e)) |}, s') /\
    (if qdrant_configured cfg then qdrant_post env msg (TOP_K cfg) = inl e
     else e = Error "Missing Qdrant config") /\
    session_log sid s' = session_log sid s ++ [stored "user" msg (Date_now env (ticks s))] /\
    requests (added s s') = [] /\
    store_calls (added s s') = [("rpush", key sid); ("expire", key sid)].
Proof.
  intros Hsid Hsid' Hmsg Hmsg' Hrel Hq.
  rewrite (chat_valid body sid msg s) by assumption.
  unfold try_catch, chat_pipeline, bind.
  rewrite pushMsg_pushed by assumption.
  destruct (pushed_proj cfg env sid "user" msg [] s) as (Hm1 & Htr1 & _).
  unfold qdrantSearch, throw.
  destruct (qdrant_configured cfg) eqn:Hcfg; cbn [negb].
  - destruct Hq as [?|(e & He)]; [discriminate|]. rewrite He.
    eexists e, _. split; [reflexivity|]. split; [reflexivity|].
    cbn [console_error emit log mem trace]. split; [|split].
    + unfold session_log at 1. cbn [mem log]. rewrite Hm1, lookup_insert_eq. reflexivity.
    + erewrite added_app; [|cbn [trace log]; rewrite Htr1, <- app_assoc; reflexivity]. reflexivity.
    + erewrite added_app; [|cbn [trace log]; rewrite Htr1, <- app_assoc; reflexivity]. reflexivity.
  - eexists (Error "Missing Qdrant config"), _. split; [reflexivity|]. split; [reflexivity|].
    cbn [console_error emit log mem trace]. split; [|split].
    + unfold session_log at 1. cbn [mem log]. rewrite Hm1, lookup_insert_eq. reflexivity.
    + erewrite added_app; [|cbn [trace log]; rewrite Htr1, <- app_assoc; reflexivity]. reflexivity.
    + erewrite added_app; [|cbn [trace log]; rewrite Htr1, <- app_assoc; reflexivity]. reflexivity.
Qed.

(** X17. End to end, when the store accepts its commands: for a valid
    request whose retrieval returns [ps], when the first [k] Gemini requests
    fail with a retryable error, [k] is below [LLM_RETRIES] and the next
    request succeeds, the handler answers 200 with
    the trimmed text of that reply (the "I am unsure" text when it is empty)
    and one source per passage; it has sent [k + 1] requests for the prompt
    built from the message and the passages, and has called the store for
    the user turn before them and for the assistant turn after them. *)
Theorem chat_answers_with_generated_text
    (body : Body.t) (sid msg : string) (ps : list Passage.t) (k : nat)
    (text : option string) (s : State) :
  Body.sessionId body = Some sid -> sid <> EmptyString ->
  Body.message body = Some msg -> msg <> EmptyString ->
  store_reliable cfg env ->
  qdrant_configured cfg = true ->
  qdrant_post env msg (TOP_K cfg) = inr ps ->
  (Z.of_nat k < LLM_RETRIES cfg)%Z ->
  (forall j, (j < k)%nat ->
     exists e, gemini_post env (posts s + j) (buildPrompt msg ps) = inl e /\
               retryable e = true) ->
  gemini_post env (posts s + k) (buildPrompt msg ps) = inr text ->
  let t := trim (default EmptyString text) in
  let answer := if nonempty t then t else unsure in
  exists s',
    chat cfg env body s
      = (Ok {| code := 200; reply := ChatReply answer (imap source_of ps) |}, s') /\
    requests (added s s') = replicate (S k) (buildPrompt msg ps) /\
    length (waits (added s s')) = k /\
    added s s'
      = [ERedis "rpush" (key sid); ERedis "expire" (key sid)]
        ++ backoff env (S k) (buildPrompt msg ps) (LLM_RETRY_MS cfg) (draws s)
        ++ [ERedis "rpush" (key sid); ERedis "expire" (key sid)].
Proof.
  intros Hsid Hsid' Hmsg Hmsg' Hrel Hcfg Hq Hk Hfail Hok t answer.
  rewrite (chat_valid body sid msg s) by assumption.
  unfold try_catch, chat_pipeline, bind.
  rewrite pushMsg_pushed by assumption.
  destruct (pushed_proj cfg env sid "user" msg [] s) as (_ & Htr1 & _ & Hp1 & Hd1).
  unfold qdrantSearch. rewrite Hcfg, Hq. cbn [negb].
  unfold chat_answer, try_catch, bind, askGemini, bind.
  destruct (askGemini_loop_succeeds cfg env k (Z.to_nat (LLM_RETRIES cfg)) (buildPrompt msg ps) 0
              (LLM_RETRY_MS cfg) (pushed cfg env sid "user" msg [] s) text)
    as (s2 & Hrun & Htr2); try lia.
  { intros j Hj. rewrite Hp1. now apply Hfail. }
  { now rewrite Hp1. }
  rewrite Hrun. unfold ret. fold t. fold answer.
  rewrite pushMsg_pushed by assumption.
  destruct (pushed_proj cfg env sid "assistant" answer [] s2) as (_ & Htr3 & _).
  assert (Hadd : added s (pushed cfg env sid "assistant" answer [] s2)
    = [ERedis "rpush" (key sid); ERedis "expire" (key sid)]
      ++ backoff env (S k) (buildPrompt msg ps) (LLM_RETRY_MS cfg) (draws s)
      ++ [ERedis "rpush" (key sid); ERedis "expire" (key sid)]).
  { apply added_app. rewrite Htr3, Htr2, Htr1, Hd1. now rewrite <- !app_assoc. }
  eexists. split; [reflexivity|]. rewrite Hadd. repeat split.
  - unfold requests. rewrite !omap_app. fold (requests (backoff env (S k) (buildPrompt msg ps)
      (LLM_RETRY_MS cfg) (draws s))). rewrite requests_backoff.
    cbn [omap list_omap app]. now rewrite app_nil_r.
  - unfold waits. rewrite !omap_app. fold (waits (backoff env (S k) (buildPrompt msg ps)
      (LLM_RETRY_MS cfg) (draws s))). rewrite waits_backoff.
    cbn [omap list_omap app]. now rewrite app_nil_r, length_map, length_seq.
Qed.


(** X19. For a body whose fields [sessionId] and [message] are strings when
    they are present, the handler answers 400 exactly when one of the two is
    absent or the empty string; the response is then
    [{error: "sessionId & message required"}] and the state is as it was. *)
Theorem chat_400_iff_field_missing (body : Body.t) (s s' : State) (resp : Response) :
  chat cfg env body s = (Ok resp, s') ->
  (code resp = 400%Z <->
   missing_or_empty (Body.sessionId body) \/ missing_or_empty (Body.message body)) /\
  (code resp = 400%Z ->
   reply resp = ErrorReply "sessionId & message required" None /\ s' = s).
Proof.
  intros Hrun.
  destruct (is_falsy (Body.sessionId body) || is_falsy (Body.message body)) eqn:Hf.
  - assert (Hmiss : missing_or_empty (Body.sessionId body) \/ missing_or_empty (Body.message body))
      by (apply orb_true_iff in Hf; rewrite <- !is_falsy_iff; exact Hf).
    unfold chat, try_catch in Hrun. rewrite Hf in Hrun.
    cbv beta iota delta [ret] in Hrun. inversion Hrun; subst.
    repeat split; auto.
  - assert (Hnot : ~ (missing_or_empty (Body.sessionId body) \/ missing_or_empty (Body.message body))).
    { rewrite <- !is_falsy_iff, <- orb_true_iff, Hf. discriminate. }
    assert (Hcode : code resp <> 400%Z).
    { revert Hrun. unfold chat, try_catch. rewrite Hf.
      unfold chat_pipeline, bind, console_error, emit, ret.
      destruct (pushMsg cfg env _ "user" _ [] s) as [[[]|e|] s1];
        [| intros [= <- <-]; discriminate | discriminate].
      destruct (qdrantSearch cfg env _ (TOP_K cfg) s1) as [[ps|e|] s2];
        [| intros [= <- <-]; discriminate | discriminate].
      destruct (chat_answer cfg env _ ps s2) as [[a|e|] s3];
        [| intros [= <- <-]; discriminate | discriminate].
      destruct (pushMsg cfg env _ "assistant" a [] s3) as [[[]|e|] s4];
        [| intros [= <- <-]; discriminate | discriminate].
      intros [= <- <-]. discriminate. }
    repeat split; intros; contradiction.
Qed.

End ChatMore.

Lemma chat_appends_two_turns_witness :
  exists s',
    s' = snd (chat (Sample.config Memory) Sample.answering Sample.request init) /\
    session_log "s1" s'
      = [stored "user" "rates?" 1700000000000; stored "assistant" "Rates were held [S1]." 1700000000001].
Proof.
  destruct (chat_appends_two_turns (Sample.config Memory) Sample.answering Sample.request init
              (snd (chat (Sample.config Memory) Sample.answering Sample.request init))
              {| code := 200;
                 reply := ChatReply "Rates were held [S1]."
                            (imap source_of [Sample.passage_a; Sample.passage_b]) |})
    as (sid & msg & answer & sources & Hsid & Hmsg & Hreply & Hlog & _).
  - left. reflexivity.
  - vm_compute. reflexivity.
  - reflexivity.
  - injection Hsid as <-. injection Hmsg as <-. injection Hreply as <- _.
    eexists. split; [reflexivity|]. exact Hlog.
Defined.


Lemma chat_fails_without_retrieval_witness :
  fst (chat {| TOP_K := 5; LLM_RETRIES := 3; LLM_RETRY_MS := 800;
               qdrant_configured := false; backend := Memory |}
         Sample.answering Sample.request init)
  = Ok {| code := 500; reply := ErrorReply "chat_failed" (Some "Missing Qdrant config") |}.
Proof.
  destruct (chat_fails_without_retrieval
              {| TOP_K := 5; LLM_RETRIES := 3; LLM_RETRY_MS := 800;
                 qdrant_configured := false; backend := Memory |}
              Sample.answering Sample.request "s1" "rates?" init)
    as (e & s' & Hrun & He & _).
  - reflexivity.
  - discriminate.
  - reflexivity.
  - discriminate.
  - left. reflexivity.
  - left. reflexivity.
  - cbn [qdrant_configured] in He. subst e. rewrite Hrun. reflexivity.
Defined.

Lemma chat_answers_with_generated_text_witness :
  exists s',
    chat (Sample.config Memory) (recovering 1) Sample.request init
      = (Ok {| code := 200;
               reply := ChatReply "Rates were held [S1]."
                          (imap source_of [Sample.passage_a; Sample.passage_b]) |}, s') /\
    length (requests (added init s')) = 2%nat.
Proof.
  destruct (chat_answers_with_generated_text (Sample.config Memory) (recovering 1)
              Sample.request "s1" "rates?" [Sample.passage_a; Sample.passage_b] 1
              (Some " Rates were held [S1]. ") init)
    as (s' & Hrun & Hreq & _).
  - reflexivity.
  - discriminate.
  - reflexivity.
  - discriminate.
  - left. reflexivity.
  - reflexivity.
  - reflexivity.
  - cbn. lia.
  - intros j Hj. exists (Sample.http_error 503).
    destruct j as [|j]; [split; reflexivity | lia].
  - reflexivity.
  - exists s'. split; [exact Hrun|]. rewrite Hreq. reflexivity.
Defined.


Lemma chat_400_iff_field_missing_witness :
  code {| code := 400; reply := ErrorReply "sessionId & message required" None |} = 400%Z <->
  missing_or_empty (Some "s1") \/ missing_or_empty (Some EmptyString).
Proof.
  apply (chat_400_iff_field_missing (Sample.config Memory) Sample.answering
           {| Body.sessionId := Some "s1"; Body.message := Some EmptyString |} init init
           {| code := 400; reply := ErrorReply "sessionId & message required" None |}).
  reflexivity.
Defined.

Section FallbackFacts.

(** X20. The busy fallback is the notice followed by the lines of the first
    five passages only: one line [• [S<i+1>] <title>] for the passage at each
    index [i] below five, joined by line feeds, and nothing for the passages
    after the fifth, which do not change it. *)
Theorem busyFallback_first_five (query : string) (passages : list Passage.t) :
  exists lines,
    busyFallback query passages = busy_notice query +:+ join LF lines /\
    length lines = Nat.min 5 (length passages) /\
    (forall i p, (i < 5)%nat -> passages !! i = Some p ->
       lines !! i = Some ("• [S" +:+ num (Z.of_nat i + 1) +:+ "] " +:+ Passage.title p)) /\
    busyFallback query passages = busyFallback query (take 5 passages).
Proof.
  exists (imap fallback_line (take 5 passages)).
  unfold busyFallback. rewrite !slice_prefix by lia.
  change (Z.to_nat 5) with 5%nat. rewrite take_take, Nat.min_id.
  repeat split.
  - now rewrite length_imap, length_take.
  - intros i p Hi Hp. rewrite list_lookup_imap, lookup_take_lt, Hp by assumption. reflexivity.
Qed.

End FallbackFacts.
